(** * A day schedule of non-overlapping tasks

    Shallow embedding of the schedule manager (ScheduleManager.ts), of
    the task model (Task.ts), of the task factory (TaskFactory.ts), of the
    time utilities (timeUtils.ts) and of the storage interface (Storage.ts),
    followed by the properties of the schedule that are proved about them.

    Conventions of the embedding:
    - a JavaScript number holding minutes or a time stamp is an integer [Z];
      an array index or a length is a [nat];
    - a JavaScript string is a [string] whose characters are code units
      below 256 (Latin-1);
    - an array is a [list]; [arr[i]] is the lookup [arr !! i], and reading a
      field of the [undefined] that an out-of-range lookup yields throws a
      TypeError, which is the [None] of the option monad in which the
      operations of the manager run;
    - calls to the collaborators (storage writes, log lines, observer
      updates) are recorded, in order, in the list of effects an operation
      returns; in [ScheduleManager] the file system calls behind them are
      taken to succeed, and [FailingStore] gives the four mutations when the
      store rejects a write. *)

From Stdlib Require Import ZArith String Ascii DecimalString.
From Equations Require Import Equations.
From stdpp Require Import base list strings sorting.

(** ** Primitives of the host language on strings *)

Module JsString.

(** The double quote character, as a one-character string. *)
Definition dquote : string := String (ascii_of_nat 34) EmptyString.

(** [n.toString()] for an integer [n]. *)
Definition toString (z : Z) : string := NilZero.string_of_int (Z.to_int z).

(** [s.padStart(2, '0')]. *)
Definition padStart2 (s : string) : string :=
  match String.length s with
  | 0 => "00"
  | 1 => "0" +:+ s
  | _ => s
  end.

(** White space and line terminators among the code units below 256:
    TAB, LF, VT, FF, CR, SP and NBSP. *)
Definition isWhiteSpace (c : ascii) : bool :=
  let n := nat_of_ascii c in
  ((9 <=? n) && (n <=? 13)) || (n =? 32) || (n =? 160).

Fixpoint trimStart (s : string) : string :=
  match s with
  | EmptyString => EmptyString
  | String c s' => if isWhiteSpace c then trimStart s' else s
  end.

Fixpoint trimEnd (s : string) : string :=
  match s with
  | EmptyString => EmptyString
  | String c s' =>
      match trimEnd s' with
      | EmptyString => if isWhiteSpace c then EmptyString else String c EmptyString
      | r => String c r
      end
  end.

(** [s.trim()]. *)
Definition trim (s : string) : string := trimEnd (trimStart s).

(** Lower case of one code unit: A-Z, and the Latin-1 capitals
    U+00C0-U+00DE apart from the multiplication sign U+00D7. *)
Definition toLowerChar (c : ascii) : ascii :=
  let n := nat_of_ascii c in
  if ((65 <=? n) && (n <=? 90))
     || ((192 <=? n) && (n <=? 222) && negb (n =? 215))
  then ascii_of_nat (n + 32)
  else c.

(** [s.toLowerCase()]. *)
Fixpoint toLowerCase (s : string) : string :=
  match s with
  | EmptyString => EmptyString
  | String c s' => String (toLowerChar c) (toLowerCase s')
  end.

End JsString.

(** ** Task.ts *)

Module Task.

Record t : Type := mk {
  id : string;
  title : string;
  description : option string;
  startMinutes : Z;
  endMinutes : Z;
  priority : string;
  completed : bool;
  createdAt : Z
}.

(** The constructor, with the parameter order of the class; the defaults
    [completed = false] and [createdAt = Date.now()] are supplied by the
    callers that rely on them. *)
Definition new (id title : string) (startMinutes endMinutes : Z)
    (priority : string) (description : option string)
    (completed : bool) (createdAt : Z) : t :=
  {| id := id; title := title; description := description;
     startMinutes := startMinutes; endMinutes := endMinutes;
     priority := priority; completed := completed; createdAt := createdAt |}.

(** [Math.floor(m / 60)] is the floor division of [Z]; [m % 60] is the
    truncated remainder [Z.rem]. *)
Definition hhmm (m : Z) : string :=
  JsString.padStart2 (JsString.toString (m / 60)%Z)
    +:+ ":" +:+ JsString.padStart2 (JsString.toString (Z.rem m 60)).

Definition getStartHHMM (x : t) : string := hhmm (startMinutes x).
Definition getEndHHMM (x : t) : string := hhmm (endMinutes x).

(** The assignment [t.completed = true]. *)
Definition set_completed (x : t) : t :=
  {| id := id x; title := title x; description := description x;
     startMinutes := startMinutes x; endMinutes := endMinutes x;
     priority := priority x; completed := true; createdAt := createdAt x |}.

End Task.

Abbreviation Task := Task.t.

(** ** timeUtils.ts and TaskFactory.ts *)

(** A call that either returns or throws an [Error] with a message. *)
Inductive thrown (A : Type) : Type :=
| Returns (a : A)
| Throws (msg : string).
Arguments Returns {A} a.
Arguments Throws {A} msg.

Module TimeUtils.

Definition digit (c : ascii) : option Z :=
  let n := nat_of_ascii c in
  if (48 <=? n) && (n <=? 57) then Some (Z.of_nat n - 48)%Z else None.

Definition checkRange (h m : Z) : thrown Z :=
  if ((h <? 0) || (23 <? h) || (m <? 0) || (59 <? m))%Z
  then Throws "Invalid time. Hours must be 0-23 and minutes 0-59."
  else Returns (h * 60 + m)%Z.

Definition invalidFormat : thrown Z :=
  Throws "Invalid time format. Expected HH:mm".

(** The pattern [^\d{1,2}:\d{2}$] admits exactly [d:dd] and [dd:dd]. *)
Definition parseTimeToMinutes (time : string) : thrown Z :=
  match time with
  | String a (String b (String c (String d EmptyString))) =>
      match digit a, Ascii.eqb b ":", digit c, digit d with
      | Some h, true, Some m1, Some m0 => checkRange h (10 * m1 + m0)%Z
      | _, _, _, _ => invalidFormat
      end
  | String a (String a' (String b (String c (String d EmptyString)))) =>
      match digit a, digit a', Ascii.eqb b ":", digit c, digit d with
      | Some h1, Some h0, true, Some m1, Some m0 =>
          checkRange (10 * h1 + h0)%Z (10 * m1 + m0)%Z
      | _, _, _, _, _ => invalidFormat
      end
  | _ => invalidFormat
  end.

(** [minutesToHHMM], the formatter the command line uses. *)
Definition minutesToHHMM (mins : Z) : string :=
  JsString.padStart2 (JsString.toString (mins / 60)%Z)
    +:+ ":" +:+ JsString.padStart2 (JsString.toString (Z.rem mins 60)).

End TimeUtils.

Module TaskFactory.

Definition parsePriority (s : string) : thrown string :=
  let normalized := JsString.toLowerCase (JsString.trim s) in
  if String.eqb normalized "high" then Returns "High"
  else if String.eqb normalized "medium" then Returns "Medium"
  else if String.eqb normalized "low" then Returns "Low"
  else Throws "Priority must be Low, Medium or High.".

(** [now] is the value of [Date.now()] when the identifier is built,
    [rnd] the value of [Math.floor(Math.random() * 10000)], and
    [created] the value of [Date.now()] inside the constructor. *)
Definition create (title startHHMM endHHMM priority : string)
    (description : option string) (now rnd created : Z) : thrown Task :=
  match TimeUtils.parseTimeToMinutes startHHMM with
  | Throws msg => Throws msg
  | Returns start =>
      match TimeUtils.parseTimeToMinutes endHHMM with
      | Throws msg => Throws msg
      | Returns end_ =>
          if (end_ <=? start)%Z then Throws "End time must be after start time."
          else
            match parsePriority priority with
            | Throws msg => Throws msg
            | Returns p =>
                let id := JsString.toString now +:+ "-" +:+ JsString.toString rnd in
                Returns (Task.new id (JsString.trim title) start end_ p
                           (JsString.trim <$> description) false created)
            end
      end
  end.

End TaskFactory.

(** ** Storage.ts, as the manager sees it *)

Module Storage.

(** The content of the tasks file: [Some arr] when it parses to the
    records [arr], [None] when it is missing or corrupt. *)
Definition file : Type := option (list Task).

(** [loadTasks] catches every failure and returns the empty list. *)
Definition loadTasks (f : file) : list Task :=
  match f with
  | Some arr => arr
  | None => []
  end.

End Storage.

(** [arr.sort(compare)]: the sort of the host language is stable, and a
    stable sort is a function of its input; this is the insertion sort with
    that result.  [compare a b <= 0] keeps [a] before [b]. *)
Module JsArray.

Section Sort.
Context {A : Type} (compare : A → A → Z).

Fixpoint insert (x : A) (l : list A) : list A :=
  match l with
  | [] => [x]
  | y :: l' => if (compare x y <=? 0)%Z then x :: y :: l' else y :: insert x l'
  end.

Fixpoint sort (l : list A) : list A :=
  match l with
  | [] => []
  | x :: l' => insert x (sort l')
  end.
End Sort.

(** [arr.splice(idx, 0, x)] for [idx] within the array. *)
Definition splice_in {A : Type} (idx : nat) (x : A) (arr : list A) : list A :=
  take idx arr ++ x :: drop idx arr.

(** [arr.splice(idx, 1)] is the [delete idx arr] of lists. *)
Definition splice_out {A : Type} (idx : nat) (arr : list A) : list A :=
  delete idx arr.

End JsArray.

(** ** ScheduleManager.ts *)

Module ScheduleManager.

(** An observer is known to the manager by its identity only. *)
Definition Observer : Type := nat.

(** The calls the manager makes to its collaborators. *)
Inductive Effect : Type :=
| SaveTasks (arr : list Task)               (* Storage.saveTasks(this.tasks) *)
| LoggerInfo (msg : string)                 (* Logger.info(msg) *)
| ObserverUpdate (o : Observer) (msg : string).  (* o.update(msg) *)

Record t : Type := mk {
  tasks : list Task;
  observers : list Observer
}.

(** The [{ success, message }] object every mutation resolves to. *)
Record Result : Type := mkResult {
  success : bool;
  message : string
}.

(** What a call leaves behind: its result, the manager afterwards and the
    collaborator calls it made, oldest first. *)
Record Outcome : Type := mkOutcome {
  result : Result;
  after : t;
  effects : list Effect
}.

(** The sparse overrides [editTask] accepts; an absent field is [None]. *)
Record Updates : Type := mkUpdates {
  u_title : option string;
  u_startMinutes : option Z;
  u_endMinutes : option Z;
  u_priority : option string;
  u_description : option string
}.

(** The manager [new ScheduleManager()] builds. *)
Definition empty : t := {| tasks := []; observers := [] |}.

Definition with_tasks (this : t) (arr : list Task) : t :=
  {| tasks := arr; observers := observers this |}.

Definition subscribe (this : t) (obs : Observer) : t :=
  {| tasks := tasks this; observers := observers this ++ [obs] |}.

Definition unsubscribe (this : t) (obs : Observer) : t :=
  {| tasks := tasks this;
     observers := filter (λ o, o ≠ obs) (observers this) |}.

(** Every observer is updated in turn; what an update throws is
    swallowed, so the loop always runs to its end. *)
Definition notify (this : t) (msg : string) : list Effect :=
  (λ o, ObserverUpdate o msg) <$> observers this.

(** The loop of [findInsertIndex], from [low] and [high]. *)
Equations? findInsertIndex_loop (arr : list Task) (startMinutes : Z)
    (low high : nat) : option nat by wf (high - low) lt :=
  findInsertIndex_loop arr startMinutes low high with decide (low < high) => {
    | left _ with arr !! ((low + high) / 2) => {
        | Some t =>
            if bool_decide (Task.startMinutes t < startMinutes)%Z
            then findInsertIndex_loop arr startMinutes ((low + high) / 2 + 1) high
            else findInsertIndex_loop arr startMinutes low ((low + high) / 2);
        | None => None };
    | right _ => Some low }.
Proof.
  all: pose proof (Nat.div_mod_eq (low + high) 2);
    pose proof (Nat.mod_upper_bound (low + high) 2);
    change (fst (Nat.divmod (low + high) 1 0 1)) with ((low + high) / 2);
    lia.
Qed.

Definition findInsertIndex (this : t) (startMinutes : Z) : option nat :=
  findInsertIndex_loop (tasks this) startMinutes 0 (length (tasks this)).

Definition overlaps (aStart aEnd bStart bEnd : Z) : bool :=
  (aStart <? bEnd)%Z && (bStart <? aEnd)%Z.

Definition addConflictMsg (other : Task) : string :=
  "Task conflicts with existing task " +:+ JsString.dquote
    +:+ Task.title other +:+ JsString.dquote
    +:+ " (" +:+ Task.getStartHHMM other +:+ "-" +:+ Task.getEndHHMM other +:+ ").".

Definition addedMsg (task : Task) : string :=
  "Task added: " +:+ Task.title task
    +:+ " (" +:+ Task.getStartHHMM task +:+ "-" +:+ Task.getEndHHMM task +:+ ")".

Definition addConflict (this : t) (other : Task) : Outcome :=
  let msg := addConflictMsg other in
  {| result := {| success := false; message := msg |};
     after := this;
     effects := notify this msg ++ [LoggerInfo ("Add conflict: " +:+ msg)] |}.

Definition addTask (this : t) (task : Task) : option Outcome :=
  idx ← findInsertIndex this (Task.startMinutes task);
  (* check previous *)
  hit ← (if bool_decide (0 ≤ Z.of_nat idx - 1)%Z then
           prev ← tasks this !! (idx - 1);
           Some (if overlaps (Task.startMinutes prev) (Task.endMinutes prev)
                      (Task.startMinutes task) (Task.endMinutes task)
                 then Some prev else None)
         else Some None);
  match hit with
  | Some prev => Some (addConflict this prev)
  | None =>
      (* check next *)
      hit ← (if bool_decide (idx < length (tasks this)) then
               next ← tasks this !! idx;
               Some (if overlaps (Task.startMinutes next) (Task.endMinutes next)
                          (Task.startMinutes task) (Task.endMinutes task)
                     then Some next else None)
             else Some None);
      match hit with
      | Some next => Some (addConflict this next)
      | None =>
          (* insert *)
          let arr := JsArray.splice_in idx task (tasks this) in
          let this' := with_tasks this arr in
          Some {| result := {| success := true;
                               message := "Task added successfully." |};
                  after := this';
                  effects := [SaveTasks arr; LoggerInfo (addedMsg task)]
                               ++ notify this' (addedMsg task) |}
      end
  end.

(** The copy [[...this.tasks]]. *)
Definition listTasks (this : t) : list Task := tasks this.

Definition listTasksByPriority (this : t) (priority : string) : list Task :=
  let pNormalized := JsString.toLowerCase (JsString.trim priority) in
  if String.eqb pNormalized EmptyString then []
  else filter (λ x, JsString.toLowerCase (Task.priority x) = pNormalized)
         (tasks this).

Definition findTasksByTitle (this : t) (title : string) : list Task :=
  let q := JsString.toLowerCase (JsString.trim title) in
  filter (λ x, JsString.toLowerCase (Task.title x) = q) (tasks this).

Definition findTaskById (this : t) (id : string) : option Task :=
  snd <$> list_find (λ x, Task.id x = id) (tasks this).

Definition removeTaskById (this : t) (id : string) : option Outcome :=
  match list_find (λ x, Task.id x = id) (tasks this) with
  | None =>
      let msg := "Error: Task not found." in
      Some {| result := {| success := false; message := msg |};
              after := this;
              effects := [LoggerInfo msg] |}
  | Some (idx, removed) =>
      let arr := JsArray.splice_out idx (tasks this) in
      let this' := with_tasks this arr in
      let msg := "Task removed: " +:+ Task.title removed in
      Some {| result := {| success := true;
                           message := "Task removed successfully." |};
              after := this';
              effects := [SaveTasks arr; LoggerInfo msg] ++ notify this' msg |}
  end.

(** The copy of the original that [editTask] builds: [a ?? b] is [a]
    unless [a] is absent. *)
Definition updatedCopy (original : Task) (updates : Updates) : Task :=
  Task.new
    (Task.id original)
    (default (Task.title original) (u_title updates))
    (default (Task.startMinutes original) (u_startMinutes updates))
    (default (Task.endMinutes original) (u_endMinutes updates))
    (default (Task.priority original) (u_priority updates))
    (match u_description updates with
     | Some d => Some d
     | None => Task.description original
     end)
    (Task.completed original)
    (Task.createdAt original).

(** The search loop written out inside [editTask], over [arr]. *)
Equations? insertIdx_loop (arr : list Task) (updated : Task)
    (low high : nat) : option nat by wf (high - low) lt :=
  insertIdx_loop arr updated low high with decide (low < high) => {
    | left _ with arr !! ((low + high) / 2) => {
        | Some t =>
            if bool_decide (Task.startMinutes t < Task.startMinutes updated)%Z
            then insertIdx_loop arr updated ((low + high) / 2 + 1) high
            else insertIdx_loop arr updated low ((low + high) / 2);
        | None => None };
    | right _ => Some low }.
Proof.
  all: pose proof (Nat.div_mod_eq (low + high) 2);
    pose proof (Nat.mod_upper_bound (low + high) 2);
    change (fst (Nat.divmod (low + high) 1 0 1)) with ((low + high) / 2);
    lia.
Qed.

Definition editConflictMsg (other : Task) : string :=
  "Edit conflicts with existing task " +:+ JsString.dquote
    +:+ Task.title other +:+ JsString.dquote +:+ ".".

Definition editConflict (this : t) (other : Task) : Outcome :=
  let msg := editConflictMsg other in
  {| result := {| success := false; message := msg |};
     after := this;
     effects := [LoggerInfo ("Edit conflict: " +:+ msg)] ++ notify this msg |}.

Definition editTask (this : t) (id : string) (updates : Updates) : option Outcome :=
  match list_find (λ x, Task.id x = id) (tasks this) with
  | None =>
      Some {| result := {| success := false; message := "Task not found." |};
              after := this;
              effects := [] |}
  | Some (idx, original) =>
      (* create updated copy *)
      let updated := updatedCopy original updates in
      (* remove temporarily *)
      let arr := JsArray.splice_out idx (tasks this) in
      (* find insertion index in arr *)
      insertIdx ← insertIdx_loop arr updated 0 (length arr);
      (* check neighbors for conflict *)
      hit ← (if bool_decide (0 ≤ Z.of_nat insertIdx - 1)%Z then
               prev ← arr !! (insertIdx - 1);
               Some (if overlaps (Task.startMinutes prev) (Task.endMinutes prev)
                          (Task.startMinutes updated) (Task.endMinutes updated)
                     then Some prev else None)
             else Some None);
      match hit with
      | Some prev => Some (editConflict this prev)
      | None =>
          hit ← (if bool_decide (insertIdx < length arr) then
                   next ← arr !! insertIdx;
                   Some (if overlaps (Task.startMinutes next) (Task.endMinutes next)
                              (Task.startMinutes updated) (Task.endMinutes updated)
                         then Some next else None)
                 else Some None);
          match hit with
          | Some next => Some (editConflict this next)
          | None =>
              (* commit *)
              let arr' := JsArray.splice_in insertIdx updated arr in
              let this' := with_tasks this arr' in
              let msg := "Task edited: " +:+ Task.title updated in
              Some {| result := {| success := true;
                                   message := "Task edited successfully." |};
                      after := this';
                      effects := [SaveTasks arr'; LoggerInfo msg] ++ notify this' msg |}
          end
      end
  end.

(** [find] returns the first task with the identifier; the assignment to
    its [completed] field changes the object the array holds at that
    index. *)
Definition markCompleted (this : t) (id : string) : option Outcome :=
  match list_find (λ x, Task.id x = id) (tasks this) with
  | None =>
      Some {| result := {| success := false; message := "Task not found." |};
              after := this;
              effects := [] |}
  | Some (idx, found) =>
      let arr := <[idx := Task.set_completed found]> (tasks this) in
      let this' := with_tasks this arr in
      let msg := "Task completed: " +:+ Task.title found in
      Some {| result := {| success := true;
                           message := "Task marked as completed." |};
              after := this';
              effects := [SaveTasks arr; LoggerInfo msg] ++ notify this' msg |}
  end.

(** [load]: the stored tasks are sorted by [startMinutes] and become the
    live collection. *)
Definition load (this : t) (f : Storage.file) : t * list Effect :=
  let arr := Storage.loadTasks f in
  (* ensure sorted *)
  let sorted := JsArray.sort (λ a b, Task.startMinutes a - Task.startMinutes b)%Z arr in
  (with_tasks this sorted, [LoggerInfo "Tasks loaded from storage."]).

(** [getInstance], the first time it is called. *)
Definition getInstance (f : Storage.file) : t := fst (load empty f).

(** The mutating calls a client can make, and a session of them. *)
Inductive Call : Type :=
| AddTask (task : Task)
| EditTask (id : string) (updates : Updates)
| RemoveTaskById (id : string)
| MarkCompleted (id : string).

Definition call (this : t) (c : Call) : option Outcome :=
  match c with
  | AddTask task => addTask this task
  | EditTask id updates => editTask this id updates
  | RemoveTaskById id => removeTaskById this id
  | MarkCompleted id => markCompleted this id
  end.

(** The results of the calls of a session, in order, and the manager at
    its end. *)
Fixpoint session (this : t) (cs : list Call) : option (list Result * t) :=
  match cs with
  | [] => Some ([], this)
  | c :: cs' =>
      o ← call this c;
      '(rs, final) ← session (after o) cs';
      Some (result o :: rs, final)
  end.

End ScheduleManager.

(** ** The properties of a schedule *)

(** Sorted ascending by [startMinutes]. *)
Definition start_le (a b : Task) : Prop :=
  (Task.startMinutes a ≤ Task.startMinutes b)%Z.
Definition sorted_by_start (l : list Task) : Prop := Sorted start_le l.

(** No task of an adjacent pair runs into the next one. *)
Definition ends_before (a b : Task) : Prop :=
  (Task.endMinutes a ≤ Task.startMinutes b)%Z.
Definition no_overlap (l : list Task) : Prop := Sorted ends_before l.

(** A task lasts for a positive time. *)
Definition positive_duration (x : Task) : Prop :=
  (Task.startMinutes x < Task.endMinutes x)%Z.

(** [i] is the insertion position of [startMinutes] in [arr]: the tasks
    before it start strictly earlier, those from it on do not. *)
Definition is_insert_index (arr : list Task) (startMinutes : Z) (i : nat) : Prop :=
  i ≤ length arr
  ∧ (∀ j x, j < i → arr !! j = Some x → (Task.startMinutes x < startMinutes)%Z)
  ∧ (∀ j x, i ≤ j → arr !! j = Some x → (startMinutes ≤ Task.startMinutes x)%Z).

(** ** The neighbour check of [addTask] and [editTask], read as a function *)

(** The candidate [cand] overlaps the stored task [other]. *)
Definition clashes (cand other : Task) : bool :=
  ScheduleManager.overlaps (Task.startMinutes other) (Task.endMinutes other)
    (Task.startMinutes cand) (Task.endMinutes cand).

(** The task just before position [idx], if any. *)
Definition prev_at (arr : list Task) (idx : nat) : option Task :=
  match idx with
  | 0 => None
  | S i => arr !! i
  end.

(** The neighbour the check reports: the predecessor when it overlaps,
    otherwise the successor when it overlaps. *)
Definition conflicting_neighbour (arr : list Task) (idx : nat) (cand : Task)
    : option Task :=
  match prev_at arr idx with
  | Some prev => if clashes cand prev then Some prev
                 else match arr !! idx with
                      | Some next => if clashes cand next then Some next else None
                      | None => None
                      end
  | None => match arr !! idx with
            | Some next => if clashes cand next then Some next else None
            | None => None
            end
  end.

(** [e] is a write to the store. *)
Definition is_save (e : ScheduleManager.Effect) : Prop :=
  match e with
  | ScheduleManager.SaveTasks _ => True
  | _ => False
  end.

(** The outcome of a successful [addTask] that inserts at [idx]. *)
Definition added (this : ScheduleManager.t) (idx : nat) (task : Task)
    : ScheduleManager.Outcome :=
  let arr := JsArray.splice_in idx task (ScheduleManager.tasks this) in
  let this' := ScheduleManager.with_tasks this arr in
  {| ScheduleManager.result :=
       {| ScheduleManager.success := true;
          ScheduleManager.message := "Task added successfully." |};
     ScheduleManager.after := this';
     ScheduleManager.effects :=
       [ScheduleManager.SaveTasks arr;
        ScheduleManager.LoggerInfo (ScheduleManager.addedMsg task)]
         ++ ScheduleManager.notify this' (ScheduleManager.addedMsg task) |}.

(** The outcome of a successful [editTask] that re-inserts [updated] at
    [insertIdx] of the reduced collection [arr]. *)
Definition edited (this : ScheduleManager.t) (arr : list Task) (insertIdx : nat)
    (updated : Task) : ScheduleManager.Outcome :=
  let arr' := JsArray.splice_in insertIdx updated arr in
  let this' := ScheduleManager.with_tasks this arr' in
  let msg := "Task edited: " +:+ Task.title updated in
  {| ScheduleManager.result :=
       {| ScheduleManager.success := true;
          ScheduleManager.message := "Task edited successfully." |};
     ScheduleManager.after := this';
     ScheduleManager.effects :=
       [ScheduleManager.SaveTasks arr'; ScheduleManager.LoggerInfo msg]
         ++ ScheduleManager.notify this' msg |}.

(** ** Sessions whose tasks all last for a positive time *)

(** The task a call would store lasts for a positive time: the task handed
    to [addTask], the copy [editTask] builds. *)
Definition well_formed (this : ScheduleManager.t) (c : ScheduleManager.Call) : Prop :=
  match c with
  | ScheduleManager.AddTask task => positive_duration task
  | ScheduleManager.EditTask id updates =>
      ∀ idx original,
        list_find (λ x, Task.id x = id) (ScheduleManager.tasks this)
          = Some (idx, original) →
        positive_duration (ScheduleManager.updatedCopy original updates)
  | _ => True
  end.

Fixpoint well_formed_session (this : ScheduleManager.t)
    (cs : list ScheduleManager.Call) : Prop :=
  match cs with
  | [] => True
  | c :: cs' =>
      well_formed this c
      ∧ ∀ o, ScheduleManager.call this c = Some o →
             well_formed_session (ScheduleManager.after o) cs'
  end.

(** The invariant of the schedule. *)
Definition schedule_invariant (arr : list Task) : Prop :=
  sorted_by_start arr ∧ no_overlap arr ∧ Forall positive_duration arr.

(** ** Tasks and updates of the scenarios *)

Module Scenario.

Definition standup : Task := Task.new "a" "Standup" 540 600 "High" None false 0.
Definition overlap : Task := Task.new "b" "Overlap" 570 630 "Low" None false 0.
Definition lunch : Task := Task.new "c" "Lunch" 660 720 "Medium" None false 0.
Definition review : Task := Task.new "t" "Review" 650 750 "Low" None false 0.

(** The update set that overrides [startMinutes] only. *)
Definition only_start (s : Z) : ScheduleManager.Updates :=
  {| ScheduleManager.u_title := None;
     ScheduleManager.u_startMinutes := Some s;
     ScheduleManager.u_endMinutes := None;
     ScheduleManager.u_priority := None;
     ScheduleManager.u_description := None |}.

(** The update set that moves a task to [[s, e)]. *)
Definition move (s e : Z) : ScheduleManager.Updates :=
  {| ScheduleManager.u_title := None;
     ScheduleManager.u_startMinutes := Some s;
     ScheduleManager.u_endMinutes := Some e;
     ScheduleManager.u_priority := None;
     ScheduleManager.u_description := None |}.

(** A fresh manager with one observer subscribed. *)
Definition observed : ScheduleManager.t :=
  ScheduleManager.subscribe ScheduleManager.empty 1.

End Scenario.

(** ** Strings up to white space and case *)

(** Every character of [s] is white space; the empty string is blank. *)
Fixpoint blank (s : string) : Prop :=
  match s with
  | EmptyString => True
  | String c s' => JsString.isWhiteSpace c = true ∧ blank s'
  end.

Definition starts_white (s : string) : Prop :=
  match s with
  | EmptyString => False
  | String c _ => JsString.isWhiteSpace c = true
  end.

Fixpoint ends_white (s : string) : Prop :=
  match s with
  | EmptyString => False
  | String c EmptyString => JsString.isWhiteSpace c = true
  | String _ s' => ends_white s'
  end.

(** [a] and [b] have the same length and, position by position, letters
    that differ by case at most. *)
Fixpoint equal_ignoring_case (a b : string) : Prop :=
  match a, b with
  | EmptyString, EmptyString => True
  | String c a', String d b' =>
      JsString.toLowerChar c = JsString.toLowerChar d ∧ equal_ignoring_case a' b'
  | _, _ => False
  end.

#[local] Instance equal_ignoring_case_dec a b : Decision (equal_ignoring_case a b).
Proof.
  revert b. induction a as [|c a IH]; intros [|d b]; simpl; try apply _.
Defined.

(** ** The [remove] and [edit] commands of the command line

    The two commands are branches of the line handler of the command line;
    they are read here as functions of the manager and of the answers to
    their prompts, which [ask] has trimmed.  What they print before they
    call the manager (the prompts, the listing of several matches) is left
    out; a command either ends on a line it prints without calling a
    mutation of the manager, or calls one and prints the message of its
    result. *)

Module Cli.

Inductive Ran : Type :=
| NoCall (line : string)
| Called (o : ScheduleManager.Outcome).

(** The digits [parseInt] reads, most significant first; [acc] is the value
    read so far, [None] before the first digit. *)
Fixpoint digits (s : string) (acc : option Z) : option Z :=
  match s with
  | EmptyString => acc
  | String c s' =>
      match TimeUtils.digit c with
      | Some d => digits s' (Some (10 * default 0%Z acc + d)%Z)
      | None => acc
      end
  end.

(** [parseInt(s, 10)]; [None] is NaN. *)
Definition parseInt (s : string) : option Z :=
  match JsString.trimStart s with
  | String "-" s' => Z.opp <$> digits s' None
  | String "+" s' => digits s' None
  | s' => digits s' None
  end.

(** [if (answer)]: the answer is not the empty string. *)
Definition answered (answer : string) : bool :=
  negb (String.eqb answer EmptyString).

Definition remove (manager : ScheduleManager.t) (q sel : string) : option Ran :=
  match ScheduleManager.findTaskById manager q with
  | Some byId => Called <$> ScheduleManager.removeTaskById manager (Task.id byId)
  | None =>
      let matches := ScheduleManager.findTasksByTitle manager q in
      match matches with
      | [] => Some (NoCall "Error: Task not found.")
      | [m] => Called <$> ScheduleManager.removeTaskById manager (Task.id m)
      | _ =>
          match parseInt sel with
          | None => Some (NoCall "Invalid selection.")
          | Some n =>
              let idx := (n - 1)%Z in
              if ((idx <? 0) || (Z.of_nat (length matches) <=? idx))%Z
              then Some (NoCall "Invalid selection.")
              else
                m ← matches !! Z.to_nat idx;
                Called <$> ScheduleManager.removeTaskById manager (Task.id m)
          end
      end
  end.

(** The [updates] object the [edit] command builds from its answers. *)
Definition editUpdates (title description start end_ priority : string)
    : thrown ScheduleManager.Updates :=
  match (if answered start
         then match TimeUtils.parseTimeToMinutes start with
              | Returns m => Returns (Some m)
              | Throws msg => Throws msg
              end
         else Returns None) with
  | Throws msg => Throws msg
  | Returns startMinutes =>
      match (if answered end_
             then match TimeUtils.parseTimeToMinutes end_ with
                  | Returns m => Returns (Some m)
                  | Throws msg => Throws msg
                  end
             else Returns None) with
      | Throws msg => Throws msg
      | Returns endMinutes =>
          Returns
            {| ScheduleManager.u_title :=
                 if answered title then Some title else None;
               ScheduleManager.u_startMinutes := startMinutes;
               ScheduleManager.u_endMinutes := endMinutes;
               ScheduleManager.u_priority :=
                 if answered priority then Some priority else None;
               ScheduleManager.u_description :=
                 if answered description then Some description else None |}
      end
  end.

Definition edit (manager : ScheduleManager.t)
    (id title description start end_ priority : string) : option Ran :=
  match ScheduleManager.findTaskById manager id with
  | None => Some (NoCall "Task not found.")
  | Some task =>
      match editUpdates title description start end_ priority with
      | Throws msg => Some (NoCall ("Error: " +:+ msg))
      | Returns updates => Called <$> ScheduleManager.editTask manager id updates
      end
  end.

End Cli.

(** ** The mutations when the store rejects a write

    [Storage.saveTasks] has no handler for what its writes throw, and the
    four mutations await it without one: when the write is rejected the
    promise of the mutation rejects at that line.  The change to the
    collection has been made by then; the log line and the updates of the
    observers, which follow the write, are not reached.  [Logger.info]
    catches what its own write throws and [notify] swallows what an update
    throws, so the write to the store is the only await that rejects.
    [saved] tells whether the write of the call, if it makes one, is
    accepted. *)

Module FailingStore.

(** How the promise of a mutation settles: it resolves to an outcome, or it
    rejects, leaving the manager [this'] and the collaborator calls made up
    to the rejected write, that write included. *)
Inductive Settled : Type :=
| Resolves (o : ScheduleManager.Outcome)
| Rejects (this' : ScheduleManager.t) (effects : list ScheduleManager.Effect).

(** The manager once the promise has settled. *)
Definition after (s : Settled) : ScheduleManager.t :=
  match s with
  | Resolves o => ScheduleManager.after o
  | Rejects this' _ => this'
  end.

Definition addTask (saved : bool) (this : ScheduleManager.t) (task : Task)
    : option Settled :=
  idx ← ScheduleManager.findInsertIndex this (Task.startMinutes task);
  (* check previous *)
  hit ← (if bool_decide (0 ≤ Z.of_nat idx - 1)%Z then
           prev ← ScheduleManager.tasks this !! (idx - 1);
           Some (if ScheduleManager.overlaps
                      (Task.startMinutes prev) (Task.endMinutes prev)
                      (Task.startMinutes task) (Task.endMinutes task)
                 then Some prev else None)
         else Some None);
  match hit with
  | Some prev => Some (Resolves (ScheduleManager.addConflict this prev))
  | None =>
      (* check next *)
      hit ← (if bool_decide (idx < length (ScheduleManager.tasks this)) then
               next ← ScheduleManager.tasks this !! idx;
               Some (if ScheduleManager.overlaps
                          (Task.startMinutes next) (Task.endMinutes next)
                          (Task.startMinutes task) (Task.endMinutes task)
                     then Some next else None)
             else Some None);
      match hit with
      | Some next => Some (Resolves (ScheduleManager.addConflict this next))
      | None =>
          (* insert *)
          let arr := JsArray.splice_in idx task (ScheduleManager.tasks this) in
          let this' := ScheduleManager.with_tasks this arr in
          if saved then
            Some (Resolves
                    {| ScheduleManager.result :=
                         {| ScheduleManager.success := true;
                            ScheduleManager.message := "Task added successfully." |};
                       ScheduleManager.after := this';
                       ScheduleManager.effects :=
                         [ScheduleManager.SaveTasks arr;
                          ScheduleManager.LoggerInfo (ScheduleManager.addedMsg task)]
                           ++ ScheduleManager.notify this'
                                (ScheduleManager.addedMsg task) |})
          else Some (Rejects this' [ScheduleManager.SaveTasks arr])
      end
  end.

Definition removeTaskById (saved : bool) (this : ScheduleManager.t) (id : string)
    : option Settled :=
  match list_find (λ x, Task.id x = id) (ScheduleManager.tasks this) with
  | None =>
      let msg := "Error: Task not found." in
      Some (Resolves
              {| ScheduleManager.result :=
                   {| ScheduleManager.success := false;
                      ScheduleManager.message := msg |};
                 ScheduleManager.after := this;
                 ScheduleManager.effects := [ScheduleManager.LoggerInfo msg] |})
  | Some (idx, removed) =>
      let arr := JsArray.splice_out idx (ScheduleManager.tasks this) in
      let this' := ScheduleManager.with_tasks this arr in
      let msg := "Task removed: " +:+ Task.title removed in
      if saved then
        Some (Resolves
                {| ScheduleManager.result :=
                     {| ScheduleManager.success := true;
                        ScheduleManager.message := "Task removed successfully." |};
                   ScheduleManager.after := this';
                   ScheduleManager.effects :=
                     [ScheduleManager.SaveTasks arr; ScheduleManager.LoggerInfo msg]
                       ++ ScheduleManager.notify this' msg |})
      else Some (Rejects this' [ScheduleManager.SaveTasks arr])
  end.

Definition editTask (saved : bool) (this : ScheduleManager.t) (id : string)
    (updates : ScheduleManager.Updates) : option Settled :=
  match list_find (λ x, Task.id x = id) (ScheduleManager.tasks this) with
  | None =>
      Some (Resolves
              {| ScheduleManager.result :=
                   {| ScheduleManager.success := false;
                      ScheduleManager.message := "Task not found." |};
                 ScheduleManager.after := this;
                 ScheduleManager.effects := [] |})
  | Some (idx, original) =>
      (* create updated copy *)
      let updated := ScheduleManager.updatedCopy original updates in
      (* remove temporarily *)
      let arr := JsArray.splice_out idx (ScheduleManager.tasks this) in
      (* find insertion index in arr *)
      insertIdx ← ScheduleManager.insertIdx_loop arr updated 0 (length arr);
      (* check neighbors for conflict *)
      hit ← (if bool_decide (0 ≤ Z.of_nat insertIdx - 1)%Z then
               prev ← arr !! (insertIdx - 1);
               Some (if ScheduleManager.overlaps
                          (Task.startMinutes prev) (Task.endMinutes prev)
                          (Task.startMinutes updated) (Task.endMinutes updated)
                     then Some prev else None)
             else Some None);
      match hit with
      | Some prev => Some (Resolves (ScheduleManager.editConflict this prev))
      | None =>
          hit ← (if bool_decide (insertIdx < length arr) then
                   next ← arr !! insertIdx;
                   Some (if ScheduleManager.overlaps
                              (Task.startMinutes next) (Task.endMinutes next)
                              (Task.startMinutes updated) (Task.endMinutes updated)
                         then Some next else None)
                 else Some None);
          match hit with
          | Some next => Some (Resolves (ScheduleManager.editConflict this next))
          | None =>
              (* commit *)
              let arr' := JsArray.splice_in insertIdx updated arr in
              let this' := ScheduleManager.with_tasks this arr' in
              let msg := "Task edited: " +:+ Task.title updated in
              if saved then
                Some (Resolves
                        {| ScheduleManager.result :=
                             {| ScheduleManager.success := true;
                                ScheduleManager.message :=
                                  "Task edited successfully." |};
                           ScheduleManager.after := this';
                           ScheduleManager.effects :=
                             [ScheduleManager.SaveTasks arr';
                              ScheduleManager.LoggerInfo msg]
                               ++ ScheduleManager.notify this' msg |})
              else Some (Rejects this' [ScheduleManager.SaveTasks arr'])
          end
      end
  end.

Definition markCompleted (saved : bool) (this : ScheduleManager.t) (id : string)
    : option Settled :=
  match list_find (λ x, Task.id x = id) (ScheduleManager.tasks this) with
  | None =>
      Some (Resolves
              {| ScheduleManager.result :=
                   {| ScheduleManager.success := false;
                      ScheduleManager.message := "Task not found." |};
                 ScheduleManager.after := this;
                 ScheduleManager.effects := [] |})
  | Some (idx, found) =>
      let arr := <[idx := Task.set_completed found]> (ScheduleManager.tasks this) in
      let this' := ScheduleManager.with_tasks this arr in
      let msg := "Task completed: " +:+ Task.title found in
      if saved then
        Some (Resolves
                {| ScheduleManager.result :=
                     {| ScheduleManager.success := true;
                        ScheduleManager.message := "Task marked as completed." |};
                   ScheduleManager.after := this';
                   ScheduleManager.effects :=
                     [ScheduleManager.SaveTasks arr; ScheduleManager.LoggerInfo msg]
                       ++ ScheduleManager.notify this' msg |})
      else Some (Rejects this' [ScheduleManager.SaveTasks arr])
  end.

Definition call (saved : bool) (this : ScheduleManager.t)
    (c : ScheduleManager.Call) : option Settled :=
  match c with
  | ScheduleManager.AddTask task => addTask saved this task
  | ScheduleManager.EditTask id updates => editTask saved this id updates
  | ScheduleManager.RemoveTaskById id => removeTaskById saved this id
  | ScheduleManager.MarkCompleted id => markCompleted saved this id
  end.

(** A session of calls, each with the fate of its write; a caller that
    catches a rejection goes on with the manager as the call left it. *)
Fixpoint session (this : ScheduleManager.t)
    (cs : list (ScheduleManager.Call * bool))
    : option (list Settled * ScheduleManager.t) :=
  match cs with
  | [] => Some ([], this)
  | (c, saved) :: cs' =>
      s ← call saved this c;
      '(ss, final) ← session (after s) cs';
      Some (s :: ss, final)
  end.

(** The call made its change to the collection: it resolved with success,
    or it rejected, which it does at its write, after the change. *)
Definition changed (s : Settled) : bool :=
  match s with
  | Resolves o => ScheduleManager.success (ScheduleManager.result o)
  | Rejects _ _ => true
  end.

(** What the outcome of a call whose write is accepted becomes under
    [saved]: a call that wrote rejects when its write does. *)
Definition settle (saved : bool) (o : ScheduleManager.Outcome) : Settled :=
  if ScheduleManager.success (ScheduleManager.result o) && negb saved
  then Rejects (ScheduleManager.after o)
         [ScheduleManager.SaveTasks
            (ScheduleManager.tasks (ScheduleManager.after o))]
  else Resolves o.

End FailingStore.

(** * Proofs *)

(** ** Lists read by index *)

Section Indexed.
Context {A : Type}.
Implicit Types (l : list A) (R : relation A).

Lemma Sorted_lookup R l :
  Sorted R l ↔ ∀ i a b, l !! i = Some a → l !! S i = Some b → R a b.
Proof.
  induction l as [|x l IH].
  - split; [intros _ i a b Hi; by destruct i | constructor].
  - split.
    + intros Hs. apply Sorted_inv in Hs as [Hs Hd].
      intros [|i] a b Ha Hb.
      * destruct l as [|y l]; simplify_eq/=. by apply HdRel_inv in Hd.
      * by eapply IH.
    + intros H. constructor.
      * apply IH. intros i a b Ha Hb. by apply (H (S i)).
      * destruct l as [|y l]; constructor. by apply (H 0).
Qed.

Lemma Sorted_lookup_le R `{!Reflexive R, !Transitive R} l i j a b :
  Sorted R l → i ≤ j → l !! i = Some a → l !! j = Some b → R a b.
Proof.
  intros Hs Hij Ha. revert b.
  induction Hij as [|j Hij IH]; intros b Hb.
  - by simplify_eq.
  - destruct (lookup_lt_is_Some_2 l j) as [c Hc].
    { apply lookup_lt_Some in Hb. lia. }
    transitivity c; [by apply IH|].
    by eapply (proj1 (Sorted_lookup R l)).
Qed.

Lemma lookup_splice_in l idx x j :
  idx ≤ length l →
  JsArray.splice_in idx x l !! j =
    if decide (j < idx) then l !! j
    else if decide (j = idx) then Some x else l !! (j - 1).
Proof.
  intros Hidx. unfold JsArray.splice_in.
  assert (length (take idx l) = idx) as Hlen by (rewrite length_take; lia).
  destruct (decide (j < idx)).
  - rewrite lookup_app_l by lia. by apply lookup_take_lt.
  - rewrite lookup_app_r by lia. rewrite Hlen.
    destruct (decide (j = idx)) as [->|].
    + by rewrite Nat.sub_diag.
    + destruct (j - idx) as [|k] eqn:Hk; [lia|]. simpl.
      rewrite lookup_drop. f_equal. lia.
Qed.

Lemma length_splice_in l idx x :
  length (JsArray.splice_in idx x l) = S (length l).
Proof.
  unfold JsArray.splice_in.
  rewrite <- (take_drop idx l) at 3.
  rewrite !length_app. simpl. lia.
Qed.

Lemma lookup_splice_out l idx j :
  JsArray.splice_out idx l !! j =
    if decide (j < idx) then l !! j else l !! S j.
Proof.
  unfold JsArray.splice_out. destruct (decide (j < idx)).
  - by apply list_lookup_delete_lt.
  - apply list_lookup_delete_ge. lia.
Qed.

Lemma list_find_lookup (P : A → Prop) `{!∀ x, Decision (P x)} l idx x :
  list_find P l = Some (idx, x) → l !! idx = Some x ∧ P x ∧ idx < length l.
Proof.
  intros Hfind. apply list_find_Some in Hfind as (Hl & HP & _).
  split_and!; [done..|]. by eapply lookup_lt_Some.
Qed.
Lemma Sorted_splice_in R l idx x :
  idx ≤ length l → Sorted R l →
  (∀ i p, S i = idx → l !! i = Some p → R p x) →
  (∀ n, l !! idx = Some n → R x n) →
  Sorted R (JsArray.splice_in idx x l).
Proof.
  intros Hidx Hs Hprev Hnext. apply Sorted_lookup. intros j a b.
  rewrite !lookup_splice_in by done. intros Ha Hb.
  repeat case_decide; simplify_eq; try lia.
  - by eapply (proj1 (Sorted_lookup R l)).
  - by eapply Hprev.
  - apply Hnext. by replace (S idx - 1) with idx in Hb by lia.
  - eapply (proj1 (Sorted_lookup R l)); [done..|].
    by replace (S (j - 1)) with (S j - 1) by lia.
Qed.

Lemma Sorted_splice_out R l idx :
  Sorted R l →
  (∀ i a c, S i = idx → l !! i = Some a → l !! S idx = Some c → R a c) →
  Sorted R (JsArray.splice_out idx l).
Proof.
  intros Hs Hskip. apply Sorted_lookup. intros j a b.
  rewrite !lookup_splice_out. intros Ha Hb.
  repeat case_decide; try lia.
  - by eapply (proj1 (Sorted_lookup R l)).
  - assert (S j = idx) as <- by lia. by eapply Hskip.
  - by eapply (proj1 (Sorted_lookup R l)).
Qed.
Lemma splice_in_splice_out l idx x :
  idx < length l →
  JsArray.splice_in idx x (JsArray.splice_out idx l) = <[idx := x]> l.
Proof.
  intros Hidx. apply list_eq. intros j.
  assert (idx ≤ length (JsArray.splice_out idx l)) as Hle.
  { unfold JsArray.splice_out.
    rewrite length_delete by by apply lookup_lt_is_Some_2. lia. }
  rewrite lookup_splice_in by done. rewrite list_lookup_insert.
  repeat case_decide; try lia; try done.
  - rewrite lookup_splice_out. by rewrite decide_True by done.
  - rewrite lookup_splice_out. rewrite decide_False by lia. f_equal. lia.
Qed.
Lemma splice_in_Permutation l idx x :
  JsArray.splice_in idx x l ≡ₚ x :: l.
Proof.
  unfold JsArray.splice_in. rewrite <- Permutation_middle.
  by rewrite take_drop.
Qed.
End Indexed.

#[local] Instance start_le_refl : Reflexive start_le.
Proof. intros x. unfold start_le. lia. Qed.
#[local] Instance start_le_trans : Transitive start_le.
Proof. intros x y z. unfold start_le. lia. Qed.

Section BinarySearch.
Import ScheduleManager.


Lemma midpoint_bounds low high :
  low < high → low ≤ (low + high) / 2 < high.
Proof.
  intros H. pose proof (Nat.div_mod_eq (low + high) 2).
  pose proof (Nat.mod_upper_bound (low + high) 2). lia.
Qed.

Lemma findInsertIndex_loop_spec arr s low high :
  low ≤ high → high ≤ length arr →
  ∃ i, findInsertIndex_loop arr s low high = Some i
       ∧ low ≤ i ≤ high
       ∧ (sorted_by_start arr →
          (∀ j x, j < low → arr !! j = Some x → (Task.startMinutes x < s)%Z) →
          (∀ j x, high ≤ j → arr !! j = Some x → (s ≤ Task.startMinutes x)%Z) →
          is_insert_index arr s i).
Proof.
  funelim (findInsertIndex_loop arr s low high); intros Hlh Hlen.
  - exists low. split_and!; [done|lia|lia|].
    intros _ Hlo Hhi. split_and!; [lia|done|].
    intros j x Hj. apply Hhi. lia.
  - pose proof (midpoint_bounds low high l) as Hmid.
    match goal with Hm : arr !! _ = Some _ |- _ => rename Hm into Hat end.
    case_bool_decide as Hcmp.
    + destruct H as (i & -> & Hi & Hspec); [lia..|].
      exists i. split_and!; [done|lia|lia|].
      intros Hs Hlo Hhi. apply Hspec; [done| |done].
      intros j x Hj Hx.
      destruct (decide (j < low)); [by eapply Hlo|].
      assert (start_le x t0) as Hle
        by (apply (Sorted_lookup_le start_le arr j ((low + high) / 2)); [done|lia|done..]).
      unfold start_le in Hle. lia.
    + destruct H0 as (i & -> & Hi & Hspec); [lia..|].
      exists i. split_and!; [done|lia|lia|].
      intros Hs Hlo Hhi. apply Hspec; [done|done|].
      intros j x Hj Hx.
      destruct (decide (high ≤ j)); [by eapply Hhi|].
      assert (start_le t0 x) as Hle
        by (apply (Sorted_lookup_le start_le arr ((low + high) / 2) j); [done|lia|done..]).
      unfold start_le in Hle. lia.
  - pose proof (midpoint_bounds low high l) as Hmid.
    match goal with Hm : arr !! _ = None |- _ => apply lookup_ge_None in Hm end.
    lia.
Qed.

Lemma insertIdx_loop_eq arr updated low high :
  insertIdx_loop arr updated low high
  = findInsertIndex_loop arr (Task.startMinutes updated) low high.
Proof.
  funelim (insertIdx_loop arr updated low high);
    simp findInsertIndex_loop;
    repeat match goal with
      | E : decide _ = _ |- _ => rewrite E; clear E; simpl
      | E : _ !! _ = _ |- _ => rewrite E; clear E; simpl
      end;
    change (fst (Nat.divmod (low + high) 1 0 1)) with ((low + high) / 2);
    repeat match goal with
      | E : _ !! _ = _ |- _ => rewrite E; clear E; simpl
      end;
    change (fst (Nat.divmod (low + high) 1 0 1)) with ((low + high) / 2);
    [done| |done].
  case_bool_decide; congruence.
Qed.
End BinarySearch.


(** ** The insertion position *)

Section Operations.
Import ScheduleManager.

Lemma findInsertIndex_total this s :
  ∃ idx, findInsertIndex this s = Some idx ∧ idx ≤ length (tasks this).
Proof.
  destruct (findInsertIndex_loop_spec (tasks this) s 0 (length (tasks this)))
    as (i & Hi & Hr & _); [lia..|].
  exists i. split; [done|lia].
Qed.

Lemma findInsertIndex_sorted this s idx :
  sorted_by_start (tasks this) →
  findInsertIndex this s = Some idx → is_insert_index (tasks this) s idx.
Proof.
  intros Hs Hidx.
  destruct (findInsertIndex_loop_spec (tasks this) s 0 (length (tasks this)))
    as (i & Hi & _ & Hspec); [lia..|].
  unfold findInsertIndex in Hidx. simplify_eq.
  apply Hspec; [done|intros; lia|].
  intros j x Hj Hx. apply lookup_lt_Some in Hx. lia.
Qed.

Lemma is_insert_index_unique arr s i i' :
  is_insert_index arr s i → is_insert_index arr s i' → i = i'.
Proof.
  intros (Hi & Hlt & Hge) (Hi' & Hlt' & Hge').
  destruct (Nat.lt_trichotomy i i') as [Hc|[Hc|Hc]]; [|done|].
  - destruct (lookup_lt_is_Some_2 arr i) as [x Hx]; [lia|].
    pose proof (Hlt' i x Hc Hx). pose proof (Hge i x ltac:(lia) Hx). lia.
  - destruct (lookup_lt_is_Some_2 arr i') as [x Hx]; [lia|].
    pose proof (Hlt i' x Hc Hx). pose proof (Hge' i' x ltac:(lia) Hx). lia.
Qed.

(** The two guarded reads of [addTask] and [editTask] amount to
    [conflicting_neighbour]. *)
Lemma neighbour_check arr idx cand (k : option Task → option Outcome) :
  idx ≤ length arr →
  (hit ← (if bool_decide (0 ≤ Z.of_nat idx - 1)%Z then
            prev ← arr !! (idx - 1);
            Some (if overlaps (Task.startMinutes prev) (Task.endMinutes prev)
                       (Task.startMinutes cand) (Task.endMinutes cand)
                  then Some prev else None)
          else Some None);
   match hit with
   | Some prev => k (Some prev)
   | None =>
       hit ← (if bool_decide (idx < length arr) then
                next ← arr !! idx;
                Some (if overlaps (Task.startMinutes next) (Task.endMinutes next)
                           (Task.startMinutes cand) (Task.endMinutes cand)
                      then Some next else None)
              else Some None);
       k hit
   end) = k (conflicting_neighbour arr idx cand).
Proof.
  intros Hidx. unfold conflicting_neighbour, prev_at, clashes.
  assert (arr !! idx = None ∨ ∃ n, arr !! idx = Some n ∧ idx < length arr) as Hnext.
  { destruct (arr !! idx) as [n|] eqn:Hn; [right|by left].
    exists n. split; [done|]. by eapply lookup_lt_Some. }
  destruct idx as [|i].
  - rewrite (bool_decide_eq_false_2 (0 ≤ Z.of_nat 0 - 1)%Z) by lia. simpl.
    destruct Hnext as [Hn|(n & Hn & Hlt)]; rewrite Hn.
    + apply lookup_ge_None in Hn. rewrite bool_decide_eq_false_2 by lia. done.
    + rewrite bool_decide_eq_true_2 by lia. simpl. by destruct (overlaps _ _ _ _).
  - rewrite (bool_decide_eq_true_2 (0 ≤ Z.of_nat (S i) - 1)%Z) by lia.
    replace (S i - 1) with i by lia.
    destruct (lookup_lt_is_Some_2 arr i) as [p Hp]; [lia|]. rewrite Hp. simpl.
    destruct (overlaps (Task.startMinutes p) _ _ _); [done|].
    destruct Hnext as [Hn|(n & Hn & Hlt)]; rewrite Hn.
    + apply lookup_ge_None in Hn. rewrite bool_decide_eq_false_2 by lia. done.
    + rewrite bool_decide_eq_true_2 by lia. simpl. by destruct (overlaps _ _ _ _).
Qed.

Lemma addTask_eq this task idx :
  findInsertIndex this (Task.startMinutes task) = Some idx →
  addTask this task =
    Some (match conflicting_neighbour (tasks this) idx task with
          | Some other => addConflict this other
          | None => added this idx task
          end).
Proof.
  intros Hidx.
  destruct (findInsertIndex_total this (Task.startMinutes task)) as (i & Hi & Hle).
  rewrite Hidx in Hi. injection Hi as <-.
  unfold addTask. rewrite Hidx.
  pose proof (neighbour_check (tasks this) idx task
    (λ hit, match hit with
            | Some other => Some (addConflict this other)
            | None => Some (added this idx task)
            end) Hle) as Hcheck.
  etrans; [exact Hcheck|]. simpl.
  by destruct (conflicting_neighbour _ _ _).
Qed.

Lemma insertIdx_total arr updated :
  ∃ i, insertIdx_loop arr updated 0 (length arr) = Some i ∧ i ≤ length arr.
Proof.
  rewrite insertIdx_loop_eq.
  apply (findInsertIndex_total {| tasks := arr; observers := [] |}).
Qed.

Lemma insertIdx_sorted arr updated i :
  sorted_by_start arr →
  insertIdx_loop arr updated 0 (length arr) = Some i →
  is_insert_index arr (Task.startMinutes updated) i.
Proof.
  rewrite insertIdx_loop_eq. intros Hs Hi.
  by apply (findInsertIndex_sorted {| tasks := arr; observers := [] |}).
Qed.

Lemma editTask_eq this id updates idx original i :
  list_find (λ x, Task.id x = id) (tasks this) = Some (idx, original) →
  insertIdx_loop (JsArray.splice_out idx (tasks this))
    (updatedCopy original updates) 0
    (length (JsArray.splice_out idx (tasks this))) = Some i →
  editTask this id updates =
    Some (match conflicting_neighbour (JsArray.splice_out idx (tasks this)) i
                  (updatedCopy original updates) with
          | Some other => editConflict this other
          | None => edited this (JsArray.splice_out idx (tasks this)) i
                      (updatedCopy original updates)
          end).
Proof.
  intros Hfind Hi.
  destruct (insertIdx_total (JsArray.splice_out idx (tasks this))
              (updatedCopy original updates)) as (i' & Hi' & Hle).
  rewrite Hi in Hi'. injection Hi' as <-.
  unfold editTask. rewrite Hfind, Hi.
  pose proof (neighbour_check (JsArray.splice_out idx (tasks this)) i
    (updatedCopy original updates)
    (λ hit, match hit with
            | Some other => Some (editConflict this other)
            | None => Some (edited this (JsArray.splice_out idx (tasks this)) i
                              (updatedCopy original updates))
            end) Hle) as Hcheck.
  etrans; [exact Hcheck|]. simpl.
  by destruct (conflicting_neighbour _ _ _).
Qed.
End Operations.

(** ** What the mutations preserve *)

Section Invariants.
Import ScheduleManager.

Lemma sorted_splice_in arr idx x :
  sorted_by_start arr → is_insert_index arr (Task.startMinutes x) idx →
  sorted_by_start (JsArray.splice_in idx x arr).
Proof.
  intros Hs (Hidx & Hlt & Hge). apply Sorted_splice_in; [done..| |].
  - intros i p <- Hp. unfold start_le.
    pose proof (Hlt i p ltac:(lia) Hp). lia.
  - intros n Hn. exact (Hge idx n ltac:(lia) Hn).
Qed.

Lemma sorted_splice_out arr idx :
  sorted_by_start arr → sorted_by_start (JsArray.splice_out idx arr).
Proof.
  intros Hs. apply Sorted_splice_out; [done|].
  intros i a c <- Ha Hc.
  apply (Sorted_lookup_le start_le arr i (S (S i))); [done|lia|done..].
Qed.

Lemma lookup_set_completed (arr : list Task) (idx : nat) found (j : nat) a :
  arr !! idx = Some found →
  <[idx := Task.set_completed found]> arr !! j = Some a →
  ∃ a0, arr !! j = Some a0
        ∧ Task.startMinutes a = Task.startMinutes a0
        ∧ Task.endMinutes a = Task.endMinutes a0.
Proof.
  intros Hfound Ha. apply list_lookup_insert_Some in Ha as [(-> & <- & _)|(_ & Ha)].
  - by exists found.
  - by exists a.
Qed.

Lemma sorted_set_completed (arr : list Task) (idx : nat) found :
  arr !! idx = Some found →
  sorted_by_start arr →
  sorted_by_start (<[idx := Task.set_completed found]> arr).
Proof.
  intros Hfound Hs. apply Sorted_lookup. intros j a b Ha Hb.
  destruct (lookup_set_completed _ _ _ _ _ Hfound Ha) as (a0 & Ha0 & Hsa & _).
  destruct (lookup_set_completed _ _ _ _ _ Hfound Hb) as (b0 & Hb0 & Hsb & _).
  pose proof (proj1 (Sorted_lookup start_le arr) Hs j a0 b0 Ha0 Hb0) as Hle.
  unfold start_le in *. lia.
Qed.

Lemma sorted_insert (x : Task) l :
  sorted_by_start l →
  sorted_by_start
    (JsArray.insert (λ a b, Task.startMinutes a - Task.startMinutes b)%Z x l).
Proof.
  induction 1 as [|y l Hs IH Hd]; simpl.
  - repeat constructor.
  - destruct (Z.leb_spec (Task.startMinutes x - Task.startMinutes y) 0).
    + constructor; [by constructor|]. constructor. unfold start_le. lia.
    + constructor; [done|].
      destruct Hd as [|z l Hz]; simpl.
      * constructor. unfold start_le. lia.
      * destruct (Z.leb_spec (Task.startMinutes x - Task.startMinutes z) 0);
          constructor; [unfold start_le; lia|done].
Qed.

Lemma sorted_sort l :
  sorted_by_start
    (JsArray.sort (λ a b, Task.startMinutes a - Task.startMinutes b)%Z l).
Proof.
  induction l as [|x l IH]; simpl; [constructor|by apply sorted_insert].
Qed.

Lemma conflicting_neighbour_None arr idx x :
  conflicting_neighbour arr idx x = None →
  (∀ p, prev_at arr idx = Some p → clashes x p = false)
  ∧ (∀ n, arr !! idx = Some n → clashes x n = false).
Proof.
  unfold conflicting_neighbour.
  destruct (prev_at arr idx) as [p|]; [destruct (clashes x p) eqn:Hp; [done|]|];
    (destruct (arr !! idx) as [n|]; [destruct (clashes x n) eqn:Hn; [done|]|]);
    intros _; split; intros ? ?; by simplify_eq.
Qed.

Lemma no_overlap_splice_in arr idx x :
  no_overlap arr → Forall positive_duration arr → positive_duration x →
  is_insert_index arr (Task.startMinutes x) idx →
  conflicting_neighbour arr idx x = None →
  no_overlap (JsArray.splice_in idx x arr).
Proof.
  intros Hno Hpos Hx (Hidx & Hlt & Hge) Hfree.
  apply conflicting_neighbour_None in Hfree as [Hprev Hnext].
  unfold positive_duration in Hx.
  apply Sorted_splice_in; [done..| |].
  - intros i p <- Hp. pose proof (Hlt i p ltac:(lia) Hp) as Hstart.
    specialize (Hprev p Hp). unfold clashes, overlaps in Hprev.
    unfold ends_before. lia.
  - intros n Hn. pose proof (Hge idx n ltac:(lia) Hn) as Hstart.
    assert (positive_duration n) as Hnpos.
    { rewrite Forall_lookup in Hpos. by eapply Hpos. }
    specialize (Hnext n Hn). unfold clashes, overlaps in Hnext.
    unfold ends_before, positive_duration in *. lia.
Qed.

Lemma no_overlap_splice_out arr idx :
  no_overlap arr → Forall positive_duration arr →
  no_overlap (JsArray.splice_out idx arr).
Proof.
  intros Hno Hpos. apply Sorted_splice_out; [done|].
  intros i a c <- Ha Hc.
  destruct (lookup_lt_is_Some_2 arr (S i)) as [r Hr].
  { apply lookup_lt_Some in Hc. lia. }
  pose proof (proj1 (Sorted_lookup ends_before arr) Hno i a r Ha Hr) as H1.
  pose proof (proj1 (Sorted_lookup ends_before arr) Hno (S i) r c Hr Hc) as H2.
  assert (positive_duration r) as Hrpos.
  { rewrite Forall_lookup in Hpos. by eapply Hpos. }
  unfold ends_before, positive_duration in *. lia.
Qed.

Lemma positive_splice_in arr idx x :
  Forall positive_duration arr → positive_duration x →
  Forall positive_duration (JsArray.splice_in idx x arr).
Proof.
  intros Hpos Hx. unfold JsArray.splice_in.
  apply Forall_app. split; [by apply Forall_take|].
  constructor; [done|by apply Forall_drop].
Qed.

Lemma positive_splice_out arr idx :
  Forall positive_duration arr →
  Forall positive_duration (JsArray.splice_out idx arr).
Proof. intros Hpos. by apply Forall_delete. Qed.
(** Under the invariant no two tasks overlap, adjacent or not. *)
Lemma no_overlap_lookup_lt arr j k a b :
  no_overlap arr → Forall positive_duration arr → j < k →
  arr !! j = Some a → arr !! k = Some b →
  (Task.endMinutes a ≤ Task.startMinutes b)%Z.
Proof.
  intros Hno Hpos Hjk Ha. revert b.
  induction Hjk as [|k Hjk IH]; intros b Hb.
  - exact (proj1 (Sorted_lookup ends_before arr) Hno j a b Ha Hb).
  - destruct (lookup_lt_is_Some_2 arr k) as [c Hc].
    { apply lookup_lt_Some in Hb. lia. }
    pose proof (IH c Hc) as H1.
    pose proof (proj1 (Sorted_lookup ends_before arr) Hno k c b Hc Hb) as H2.
    rewrite Forall_lookup in Hpos. pose proof (Hpos k c Hc) as H3.
    unfold ends_before, positive_duration in *. lia.
Qed.

(** A copy that stays within the slot of the original goes back to the
    position of the original and meets no conflict there. *)
Lemma own_slot arr idx original updated :
  schedule_invariant arr → arr !! idx = Some original →
  (Task.startMinutes original ≤ Task.startMinutes updated)%Z →
  positive_duration updated →
  (Task.endMinutes updated ≤ Task.endMinutes original)%Z →
  is_insert_index (JsArray.splice_out idx arr) (Task.startMinutes updated) idx
  ∧ conflicting_neighbour (JsArray.splice_out idx arr) idx updated = None.
Proof.
  intros (Hs & Hno & Hpos) Horig Hstart Hdur Hend.
  pose proof (lookup_lt_Some _ _ _ Horig) as Hlt.
  assert (∀ j x, j < idx → arr !! j = Some x →
            (Task.endMinutes x ≤ Task.startMinutes original)%Z) as Hbefore
    by (intros j x Hj Hx; by eapply (no_overlap_lookup_lt arr j idx)).
  assert (∀ j x, idx < j → arr !! j = Some x →
            (Task.endMinutes original ≤ Task.startMinutes x)%Z) as Hafter
    by (intros j x Hj Hx; by eapply (no_overlap_lookup_lt arr idx j)).
  assert (∀ j x, arr !! j = Some x → positive_duration x) as Hdurs
    by (by apply Forall_lookup).
  unfold positive_duration in *. split.
  - split_and!.
    + unfold JsArray.splice_out.
      rewrite length_delete by by apply lookup_lt_is_Some_2. lia.
    + intros j x Hj. rewrite lookup_splice_out, decide_True by done. intros Hx.
      pose proof (Hbefore j x Hj Hx). pose proof (Hdurs j x Hx). lia.
    + intros j x Hj. rewrite lookup_splice_out, decide_False by lia. intros Hx.
      pose proof (Hafter (S j) x ltac:(lia) Hx). lia.
  - unfold conflicting_neighbour, prev_at, clashes, overlaps.
    assert (∀ n, JsArray.splice_out idx arr !! idx = Some n →
              (Task.startMinutes n <? Task.endMinutes updated)%Z = false) as Hnext.
    { intros n. rewrite lookup_splice_out, decide_False by lia. intros Hn.
      pose proof (Hafter (S idx) n ltac:(lia) Hn). lia. }
    destruct idx as [|i].
    + destruct (JsArray.splice_out 0 arr !! 0) as [n|]; [|done].
      by rewrite (Hnext n eq_refl).
    + destruct (JsArray.splice_out (S i) arr !! i) as [p|] eqn:Hp.
      * rewrite lookup_splice_out, decide_True in Hp by lia.
        pose proof (Hbefore i p ltac:(lia) Hp).
        replace (Task.startMinutes updated <? Task.endMinutes p)%Z
          with false by lia.
        rewrite andb_false_r.
        destruct (JsArray.splice_out (S i) arr !! S i) as [n|]; [|done].
        by rewrite (Hnext n eq_refl).
      * destruct (JsArray.splice_out (S i) arr !! S i) as [n|]; [|done].
        by rewrite (Hnext n eq_refl).
Qed.
Lemma insert_Permutation (x : Task) l :
  JsArray.insert (λ a b, Task.startMinutes a - Task.startMinutes b)%Z x l ≡ₚ x :: l.
Proof.
  induction l as [|y l IH]; simpl; [done|].
  destruct (Z.leb_spec (Task.startMinutes x - Task.startMinutes y) 0); [done|].
  rewrite IH. apply Permutation_swap.
Qed.

Lemma insert_filter_start (x : Task) l s :
  filter (λ y, Task.startMinutes y = s)
    (JsArray.insert (λ a b, Task.startMinutes a - Task.startMinutes b)%Z x l)
  = filter (λ y, Task.startMinutes y = s) (x :: l).
Proof.
  induction l as [|y l IH]; simpl; [done|].
  destruct (Z.leb_spec (Task.startMinutes x - Task.startMinutes y) 0); [done|].
  rewrite (filter_cons _ y), IH, !(filter_cons _ x), (filter_cons _ y).
  repeat case_decide; try done. lia.
Qed.

Lemma sort_sorted_id l :
  sorted_by_start l →
  JsArray.sort (λ a b, Task.startMinutes a - Task.startMinutes b)%Z l = l.
Proof.
  induction 1 as [|x l Hs IH Hd]; simpl; [done|].
  rewrite IH. destruct Hd as [|y l Hxy]; simpl; [done|].
  unfold start_le in Hxy.
  destruct (Z.leb_spec (Task.startMinutes x - Task.startMinutes y) 0); [done|lia].
Qed.

Lemma sort_Permutation (l : list Task) :
  JsArray.sort (λ a b, Task.startMinutes a - Task.startMinutes b)%Z l ≡ₚ l.
Proof.
  induction l as [|x l IH]; simpl; [done|].
  by rewrite insert_Permutation, IH.
Qed.

Lemma sort_filter_start (l : list Task) s :
  filter (λ y, Task.startMinutes y = s)
    (JsArray.sort (λ a b, Task.startMinutes a - Task.startMinutes b)%Z l)
  = filter (λ y, Task.startMinutes y = s) l.
Proof.
  induction l as [|x l IH]; simpl; [done|].
  by rewrite insert_filter_start, !(filter_cons _ x), IH.
Qed.
End Invariants.

(** ** One call, by cases *)

Section Calls.
Import ScheduleManager.

(** Every call returns; it either fails and leaves the manager as it was,
    or succeeds with one of four changes to the collection. *)
Lemma call_cases this c :
  ∃ o, call this c = Some o
  ∧ observers (after o) = observers this
  ∧ ((success (result o) = false ∧ after o = this)
     ∨ (success (result o) = true
        ∧ ((∃ task idx,
              c = AddTask task
              ∧ findInsertIndex this (Task.startMinutes task) = Some idx
              ∧ conflicting_neighbour (tasks this) idx task = None
              ∧ tasks (after o) = JsArray.splice_in idx task (tasks this))
           ∨ (∃ id updates idx original i,
                c = EditTask id updates
                ∧ list_find (λ x, Task.id x = id) (tasks this) = Some (idx, original)
                ∧ insertIdx_loop (JsArray.splice_out idx (tasks this))
                    (updatedCopy original updates) 0
                    (length (JsArray.splice_out idx (tasks this))) = Some i
                ∧ conflicting_neighbour (JsArray.splice_out idx (tasks this)) i
                    (updatedCopy original updates) = None
                ∧ tasks (after o) =
                    JsArray.splice_in i (updatedCopy original updates)
                      (JsArray.splice_out idx (tasks this)))
           ∨ (∃ id idx removed,
                c = RemoveTaskById id
                ∧ list_find (λ x, Task.id x = id) (tasks this) = Some (idx, removed)
                ∧ tasks (after o) = JsArray.splice_out idx (tasks this))
           ∨ (∃ id idx found,
                c = MarkCompleted id
                ∧ list_find (λ x, Task.id x = id) (tasks this) = Some (idx, found)
                ∧ tasks (after o) = <[idx := Task.set_completed found]> (tasks this))))).
Proof.
  destruct c as [task|id updates|id|id]; simpl.
  - destruct (findInsertIndex_total this (Task.startMinutes task)) as (idx & Hidx & _).
    rewrite (addTask_eq _ _ _ Hidx).
    destruct (conflicting_neighbour _ _ _) as [other|] eqn:Hc; eexists; split; try done.
    + split; [done|]. by left.
    + split; [done|]. right. split; [done|]. left. by exists task, idx.
  - destruct (list_find (λ x, Task.id x = id) (tasks this)) as [[idx original]|] eqn:Hfind.
    + destruct (insertIdx_total (JsArray.splice_out idx (tasks this))
                  (updatedCopy original updates)) as (i & Hi & _).
      rewrite (editTask_eq _ _ _ _ _ _ Hfind Hi).
      destruct (conflicting_neighbour _ _ _) as [other|] eqn:Hc; eexists; split; try done.
      * split; [done|]. by left.
      * split; [done|]. right. split; [done|]. right; left.
        by exists id, updates, idx, original, i.
    + unfold editTask. rewrite Hfind. eexists; split; [done|]. split; [done|]. by left.
  - unfold removeTaskById.
    destruct (list_find (λ x, Task.id x = id) (tasks this)) as [[idx removed]|] eqn:Hfind; eexists; split; try done.
    + split; [done|]. right. split; [done|]. right; right; left. by exists id, idx, removed.
    + split; [done|]. by left.
  - unfold markCompleted.
    destruct (list_find (λ x, Task.id x = id) (tasks this)) as [[idx found]|] eqn:Hfind; eexists; split; try done.
    + split; [done|]. right. split; [done|]. right; right; right. by exists id, idx, found.
    + split; [done|]. by left.
Qed.

Lemma call_sorted this c :
  sorted_by_start (tasks this) →
  ∃ o, call this c = Some o ∧ sorted_by_start (tasks (after o)).
Proof.
  intros Hs. destruct (call_cases this c) as (o & Ho & _ & Hcases).
  exists o. split; [done|].
  destruct Hcases as [[_ ->]|[_ Hcases]]; [done|].
  destruct Hcases as [(task & idx & _ & Hidx & _ & ->)
    |[(id & updates & idx & original & i & _ & _ & Hi & _ & ->)
    |[(id & idx & removed & _ & _ & ->)
    |(id & idx & found & _ & Hfind & ->)]]].
  - apply sorted_splice_in; [done|]. by apply findInsertIndex_sorted.
  - pose proof (sorted_splice_out _ idx Hs) as Hs'.
    apply sorted_splice_in; [done|]. by apply insertIdx_sorted.
  - by apply sorted_splice_out.
  - apply list_find_lookup in Hfind as (Hfound & _). by apply sorted_set_completed.
Qed.

Lemma call_invariant this c :
  schedule_invariant (tasks this) → well_formed this c →
  ∃ o, call this c = Some o ∧ schedule_invariant (tasks (after o)).
Proof.
  intros (Hs & Hno & Hpos) Hwf. destruct (call_cases this c) as (o & Ho & _ & Hcases).
  exists o. split; [done|].
  destruct Hcases as [[_ ->]|[_ Hcases]]; [done|].
  destruct Hcases as [(task & idx & -> & Hidx & Hfree & ->)
    |[(id & updates & idx & original & i & -> & Hfind & Hi & Hfree & ->)
    |[(id & idx & removed & _ & _ & ->)
    |(id & idx & found & _ & Hfind & ->)]]].
  - simpl in Hwf. pose proof (findInsertIndex_sorted _ _ _ Hs Hidx) as Hins.
    split_and!.
    + by apply sorted_splice_in.
    + by apply no_overlap_splice_in.
    + by apply positive_splice_in.
  - simpl in Hwf. specialize (Hwf idx original Hfind).
    pose proof (sorted_splice_out _ idx Hs) as Hs'.
    pose proof (no_overlap_splice_out _ idx Hno Hpos) as Hno'.
    pose proof (positive_splice_out _ idx Hpos) as Hpos'.
    pose proof (insertIdx_sorted _ _ _ Hs' Hi) as Hins.
    split_and!.
    + by apply sorted_splice_in.
    + by apply no_overlap_splice_in.
    + by apply positive_splice_in.
  - split_and!.
    + by apply sorted_splice_out.
    + by apply no_overlap_splice_out.
    + by apply positive_splice_out.
  - apply list_find_lookup in Hfind as (Hfound & _).
    split_and!.
    + by apply sorted_set_completed.
    + apply Sorted_lookup. intros j a b Ha Hb.
      destruct (lookup_set_completed _ _ _ _ _ Hfound Ha) as (a0 & Ha0 & _ & Hea).
      destruct (lookup_set_completed _ _ _ _ _ Hfound Hb) as (b0 & Hb0 & Hsb & _).
      pose proof (proj1 (Sorted_lookup ends_before (tasks this)) Hno j a0 b0 Ha0 Hb0) as Hle.
      unfold ends_before in *. lia.
    + apply Forall_lookup. intros j a Ha.
      destruct (lookup_set_completed _ _ _ _ _ Hfound Ha) as (a0 & Ha0 & Hsa & Hea).
      rewrite Forall_lookup in Hpos. specialize (Hpos j a0 Ha0).
      unfold positive_duration in *. lia.
Qed.

Lemma session_sorted cs : ∀ this,
  sorted_by_start (tasks this) →
  ∃ rs final, session this cs = Some (rs, final) ∧ sorted_by_start (tasks final).
Proof.
  induction cs as [|c cs IH]; intros this Hs; simpl.
  - by exists [], this.
  - destruct (call_sorted this c Hs) as (o & -> & Hs'). simpl.
    destruct (IH (after o) Hs') as (rs & final & -> & Hfinal). simpl.
    by exists (result o :: rs), final.
Qed.

(** The invariant of the schedule holds along every session in which the
    tasks handed to [addTask] and the copies built by [editTask] last for a
    positive time. *)
Lemma session_invariant cs : ∀ this,
  schedule_invariant (tasks this) → well_formed_session this cs →
  ∃ rs final, session this cs = Some (rs, final) ∧ schedule_invariant (tasks final).
Proof.
  induction cs as [|c cs IH]; intros this Hinv Hwf; simpl.
  - by exists [], this.
  - destruct Hwf as [Hc Hrest].
    destruct (call_invariant this c Hinv Hc) as (o & Ho & Hinv').
    rewrite Ho. simpl.
    destruct (IH (after o) Hinv' (Hrest o Ho)) as (rs & final & -> & Hfinal). simpl.
    by exists (result o :: rs), final.
Qed.
End Calls.

(** ** Trimming and lower case *)

Section Strings.
Import JsString.

Lemma append_nil (s : string) : EmptyString +:+ s = s.
Proof. reflexivity. Qed.

Lemma append_cons c (a s : string) : String c a +:+ s = String c (a +:+ s).
Proof. reflexivity. Qed.

Lemma trimStart_split s :
  ∃ l, s = l +:+ trimStart s ∧ blank l.
Proof.
  induction s as [|c s (l & Hl & Hb)]; simpl.
  - by exists EmptyString.
  - destruct (isWhiteSpace c) eqn:Hc.
    + exists (String c l). rewrite append_cons, <- Hl. done.
    + by exists EmptyString.
Qed.

Lemma trimStart_not_white s : ¬ starts_white (trimStart s).
Proof.
  induction s as [|c s IH]; simpl; [tauto|].
  destruct (isWhiteSpace c) eqn:Hc; [done|]. simpl. congruence.
Qed.

Lemma trimStart_empty s : trimStart s = EmptyString ↔ blank s.
Proof.
  induction s as [|c s IH]; simpl; [done|].
  destruct (isWhiteSpace c) eqn:Hc; [rewrite IH; tauto|].
  split; [done|]. intros [? _]. congruence.
Qed.

Lemma trimEnd_split s :
  ∃ r, s = trimEnd s +:+ r ∧ blank r.
Proof.
  induction s as [|c s (r & Hr & Hb)]; simpl.
  - by exists EmptyString.
  - destruct (trimEnd s) as [|d t] eqn:Ht.
    + rewrite append_nil in Hr. subst s. destruct (isWhiteSpace c) eqn:Hc.
      * by exists (String c r).
      * by exists r.
    + exists r. rewrite append_cons, <- Hr. done.
Qed.

Lemma trimEnd_not_white s : ¬ ends_white (trimEnd s).
Proof.
  induction s as [|c s IH]; simpl; [tauto|].
  destruct (trimEnd s) as [|d t] eqn:Ht.
  - destruct (isWhiteSpace c) eqn:Hc; simpl; [tauto|congruence].
  - exact IH.
Qed.

Lemma trimEnd_start s : ¬ starts_white s → ¬ starts_white (trimEnd s).
Proof.
  destruct s as [|c s]; simpl; [tauto|].
  intros Hc. destruct (trimEnd s); [|done].
  destruct (isWhiteSpace c) eqn:E; [done|]. simpl. congruence.
Qed.

Lemma trimEnd_empty s : trimEnd s = EmptyString ↔ blank s.
Proof.
  induction s as [|c s IH]; simpl; [done|].
  destruct (trimEnd s) as [|d t] eqn:Ht.
  - destruct (isWhiteSpace c) eqn:Hc.
    + split; [|done]. intros _. split; [done|]. by apply IH.
    + split; [done|]. intros [? _]. congruence.
  - split; [done|]. intros [_ Hb]. by apply IH in Hb.
Qed.

Lemma blank_not_white s : blank s → ¬ starts_white s → s = EmptyString.
Proof. destruct s as [|c s]; simpl; [done|]. intros [? _] ?. done. Qed.

Lemma trim_empty p : trim p = EmptyString ↔ blank p.
Proof.
  unfold trim. rewrite trimEnd_empty. split.
  - intros Hb. apply trimStart_empty.
    apply blank_not_white; [done|apply trimStart_not_white].
  - intros Hb. apply trimStart_empty in Hb. by rewrite Hb.
Qed.

Lemma trim_split p :
  ∃ l r, p = l +:+ trim p +:+ r ∧ blank l ∧ blank r
         ∧ ¬ starts_white (trim p) ∧ ¬ ends_white (trim p).
Proof.
  destruct (trimStart_split p) as (l & Hl & Hbl).
  destruct (trimEnd_split (trimStart p)) as (r & Hr & Hbr).
  exists l, r. unfold trim. split_and!; [|done|done| |].
  - by rewrite <- Hr.
  - apply trimEnd_start, trimStart_not_white.
  - apply trimEnd_not_white.
Qed.

Lemma toLowerCase_empty s : toLowerCase s = EmptyString ↔ s = EmptyString.
Proof. by destruct s. Qed.

Lemma toLowerCase_eq a : ∀ b,
  toLowerCase a = toLowerCase b ↔ equal_ignoring_case a b.
Proof.
  induction a as [|c a IH]; intros [|d b]; simpl; try done.
  rewrite <- IH. split; [by intros [= ? ?]|by intros [-> ->]].
Qed.
End Strings.

(** * The claims *)

Section Claims.
Import ScheduleManager.

(** C4. The overlap test of the conflict checks holds of [aStart, aEnd) and
    [bStart, bEnd) exactly when aStart < bEnd and bStart < aEnd; so
    [540, 600) and [600, 660), which touch, do not overlap, and [540, 600)
    and [599, 660) do. *)
Theorem overlaps_iff :
  (∀ aStart aEnd bStart bEnd,
     overlaps aStart aEnd bStart bEnd = true ↔ (aStart < bEnd ∧ bStart < aEnd)%Z)
  ∧ overlaps 540 600 600 660 = false
  ∧ overlaps 540 600 599 660 = true.
Proof.
  split; [|by split].
  intros aStart aEnd bStart bEnd. unfold overlaps.
  rewrite andb_true_iff, !Z.ltb_lt. done.
Qed.

(** C6. On a collection sorted by start, [findInsertIndex] returns the
    insertion position of the target: every task before it starts strictly
    earlier, every task from it on starts at the target or later, and no
    position further left has the second property.  The search written out
    in [editTask] returns that same position on the collection without the
    edited task. *)
Theorem findInsertIndex_lower_bound :
  (∀ this startMinutes,
     sorted_by_start (tasks this) →
     ∃ i, findInsertIndex this startMinutes = Some i
          ∧ is_insert_index (tasks this) startMinutes i
          ∧ ∀ i', i' ≤ length (tasks this) →
                  (∀ j x, i' ≤ j → tasks this !! j = Some x →
                          (startMinutes ≤ Task.startMinutes x)%Z) →
                  i ≤ i')
  ∧ (∀ this idx updated,
       sorted_by_start (tasks this) →
       ∃ i, insertIdx_loop (delete idx (tasks this)) updated 0
              (length (delete idx (tasks this))) = Some i
            ∧ findInsertIndex (with_tasks this (delete idx (tasks this)))
                (Task.startMinutes updated) = Some i
            ∧ is_insert_index (delete idx (tasks this))
                (Task.startMinutes updated) i).
Proof.
  split.
  - intros this s Hs.
    destruct (findInsertIndex_total this s) as (i & Hi & Hle).
    pose proof (findInsertIndex_sorted _ _ _ Hs Hi) as Hins.
    exists i. split_and!; [done..|].
    intros i' Hi' Hsuffix.
    destruct (decide (i ≤ i')) as [|Hlt]; [done|].
    destruct Hins as (_ & Hbefore & _).
    destruct (lookup_lt_is_Some_2 (tasks this) i') as [x Hx]; [lia|].
    pose proof (Hbefore i' x ltac:(lia) Hx).
    pose proof (Hsuffix i' x ltac:(lia) Hx). lia.
  - intros this idx updated Hs.
    pose proof (sorted_splice_out _ idx Hs) as Hs'. unfold JsArray.splice_out in Hs'.
    destruct (insertIdx_total (delete idx (tasks this)) updated) as (i & Hi & _).
    exists i. split_and!; [done| |by apply insertIdx_sorted].
    rewrite insertIdx_loop_eq in Hi. exact Hi.
Qed.

(** C7. Initialization takes what the store returned and sorts it by
    [startMinutes] before accepting it: the live collection holds exactly
    the stored tasks, those that start at the same minute in their stored
    order, sorted ascending.  [listTasks()] returns the collection of the
    manager, and it is sorted ascending by [startMinutes] after
    initialization and after every further call, whatever the result of the
    call: a call that reports a failure leaves the list as it was, and a
    call that succeeds leaves the list the operation defines (the old tasks
    and the new one; the old tasks with the copy in place of the original;
    the old list without the removed task; the old list with the task
    marked), sorted. *)
Theorem listTasks_sorted (f : Storage.file) (cs : list Call) :
  (listTasks (getInstance f) ≡ₚ Storage.loadTasks f
   ∧ (∀ s, filter (λ x, Task.startMinutes x = s) (listTasks (getInstance f))
           = filter (λ x, Task.startMinutes x = s) (Storage.loadTasks f))
   ∧ sorted_by_start (listTasks (getInstance f)))
  ∧ (∃ rs final, session (getInstance f) cs = Some (rs, final)
                 ∧ listTasks final = tasks final
                 ∧ sorted_by_start (listTasks final))
  ∧ (∀ this c,
       sorted_by_start (tasks this) →
       ∃ o, call this c = Some o
            ∧ listTasks (after o) = tasks (after o)
            ∧ sorted_by_start (listTasks (after o))
            ∧ (success (result o) = false → listTasks (after o) = listTasks this)
            ∧ (success (result o) = true →
               match c with
               | AddTask task => listTasks (after o) ≡ₚ task :: listTasks this
               | EditTask id updates =>
                   ∃ idx original,
                     list_find (λ x, Task.id x = id) (tasks this)
                       = Some (idx, original)
                     ∧ listTasks (after o)
                       ≡ₚ updatedCopy original updates
                            :: delete idx (listTasks this)
               | RemoveTaskById id =>
                   ∃ idx removed,
                     list_find (λ x, Task.id x = id) (tasks this)
                       = Some (idx, removed)
                     ∧ listTasks (after o) = delete idx (listTasks this)
               | MarkCompleted id =>
                   ∃ idx found,
                     list_find (λ x, Task.id x = id) (tasks this)
                       = Some (idx, found)
                     ∧ listTasks (after o)
                       = <[idx := Task.set_completed found]> (listTasks this)
               end)).
Proof.
  assert (sorted_by_start (listTasks (getInstance f))) as Hload
    by apply sorted_sort.
  split_and!.
  - apply sort_Permutation.
  - intros s. apply sort_filter_start.
  - done.
  - destruct (session_sorted cs (getInstance f) Hload) as (rs & final & Hrun & Hs).
    by exists rs, final.
  - intros this c Hs.
    destruct (call_sorted this c Hs) as (o & Ho & Hs').
    destruct (call_cases this c) as (o' & Ho' & _ & Hcases).
    rewrite Ho in Ho'. injection Ho' as <-.
    exists o. split_and!; [done..| |].
    + intros Hko. destruct Hcases as [[_ ->]|[Hok _]]; [done|congruence].
    + intros Hok. destruct Hcases as [[Hko _]|[_ Hcases]]; [congruence|].
      destruct Hcases as [(task & idx & -> & _ & _ & Htasks)
        |[(id & updates & idx & original & i & -> & Hfind & _ & _ & Htasks)
        |[(id & idx & removed & -> & Hfind & Htasks)
        |(id & idx & found & -> & Hfind & Htasks)]]];
        unfold listTasks; rewrite Htasks.
      * apply splice_in_Permutation.
      * exists idx, original. split; [done|]. apply splice_in_Permutation.
      * by exists idx, removed.
      * by exists idx, found.
Qed.

Lemma listTasks_sorted_witness :
  ∃ o, call (with_tasks empty [Scenario.standup; Scenario.lunch])
         (AddTask Scenario.review) = Some o
       ∧ listTasks (after o) = tasks (after o)
       ∧ sorted_by_start (listTasks (after o))
       ∧ (success (result o) = false →
          listTasks (after o) = [Scenario.standup; Scenario.lunch])
       ∧ (success (result o) = true →
          listTasks (after o)
          ≡ₚ Scenario.review :: [Scenario.standup; Scenario.lunch]).
Proof.
  apply (proj2 (proj2 (listTasks_sorted None []))
           (with_tasks empty [Scenario.standup; Scenario.lunch])
           (AddTask Scenario.review)).
  repeat constructor. unfold start_le. simpl. lia.
Defined.


(** C1, at the input on which the code departs from it: three successful
    calls from the empty schedule, both tasks handed to [addTask] lasting
    for a positive time, leave an adjacent pair (A, B) with A.endMinutes >
    B.startMinutes.  The edit moves the start of the stored task past its
    end, and the next insertion is not checked against that. *)
Theorem edit_then_add_breaks_no_overlap :
  positive_duration Scenario.standup
  ∧ positive_duration Scenario.review
  ∧ ∃ r1 r2 r3 final,
      session empty
        [AddTask Scenario.standup;
         EditTask "a" (Scenario.only_start 700);
         AddTask Scenario.review] = Some ([r1; r2; r3], final)
      ∧ success r1 = true ∧ success r2 = true ∧ success r3 = true
      ∧ listTasks final =
          [Scenario.review;
           updatedCopy Scenario.standup (Scenario.only_start 700)]
      ∧ ¬ no_overlap (listTasks final).
Proof.
  split_and!; [unfold positive_duration; simpl; lia..|].
  do 4 eexists. split_and!; [vm_compute; reflexivity|done..|].
  intros Hno. apply Sorted_inv in Hno as [_ Hd].
  apply HdRel_inv in Hd. unfold ends_before in Hd. simpl in Hd. lia.
Qed.

(** C3. [editTask] does not check the duration of the copy it builds: on a
    schedule whose only task lasts for a positive time, overriding just
    [startMinutes] with a value past the end succeeds and stores a task with
    endMinutes <= startMinutes; so does, on any one-task schedule, any
    such override at or past the end.  The check lives in
    [TaskFactory.create], every task of which lasts for a positive time. *)
Theorem editTask_skips_duration_check :
  (∃ this id s o x,
     Forall positive_duration (tasks this)
     ∧ editTask this id (Scenario.only_start s) = Some o
     ∧ success (result o) = true
     ∧ tasks (after o) = [x]
     ∧ Task.id x = id
     ∧ (Task.endMinutes x ≤ Task.startMinutes x)%Z)
  ∧ (∀ x s,
       (Task.endMinutes x ≤ s)%Z →
       ∃ o, editTask (with_tasks empty [x]) (Task.id x) (Scenario.only_start s)
              = Some o
            ∧ success (result o) = true
            ∧ tasks (after o) = [updatedCopy x (Scenario.only_start s)]
            ∧ (Task.endMinutes (updatedCopy x (Scenario.only_start s))
               ≤ Task.startMinutes (updatedCopy x (Scenario.only_start s)))%Z)
  ∧ (∀ title startHHMM endHHMM priority description now rnd created task,
       TaskFactory.create title startHHMM endHHMM priority description
         now rnd created = Returns task →
       positive_duration task).
Proof.
  split.
  - exists (with_tasks empty [Scenario.standup]), "a"%string, 700%Z.
    do 2 eexists. split_and!.
    + repeat constructor.
    + vm_compute. reflexivity.
    + done.
    + done.
    + done.
    + simpl. lia.
  - split; [intros x s Hs|].
    { assert (list_find (λ y, Task.id y = Task.id x) (tasks (with_tasks empty [x]))
              = Some (0, x)) as Hfind.
      { apply list_find_Some. split_and!; [done..|]. intros j y _ Hj. lia. }
      destruct (insertIdx_total
                  (JsArray.splice_out 0 (tasks (with_tasks empty [x])))
                  (updatedCopy x (Scenario.only_start s))) as (i & Hi & Hle).
      assert (i = 0) as -> by (simpl in Hle; lia).
      rewrite (editTask_eq _ _ _ _ _ _ Hfind Hi).
      eexists. split; [reflexivity|]. by split_and!. }
    intros title startHHMM endHHMM priority description now rnd created task.
    unfold TaskFactory.create.
    destruct (TimeUtils.parseTimeToMinutes startHHMM) as [start|]; [|done].
    destruct (TimeUtils.parseTimeToMinutes endHHMM) as [end_|]; [|done].
    destruct (Z.leb_spec end_ start); [done|].
    destruct (TaskFactory.parsePriority priority); [|done].
    intros [= <-]. unfold positive_duration. simpl. lia.
Qed.

Lemma editTask_skips_duration_check_witness :
  (∃ o, editTask (with_tasks empty [Scenario.lunch]) "c" (Scenario.only_start 720)
          = Some o
        ∧ success (result o) = true
        ∧ tasks (after o) = [updatedCopy Scenario.lunch (Scenario.only_start 720)]
        ∧ (720 ≤ 720)%Z)
  ∧ positive_duration
      (Task.new "1-2" "Standup" 540 600 "High" None false 3).
Proof.
  split.
  - apply (proj1 (proj2 editTask_skips_duration_check) Scenario.lunch 720%Z).
    simpl. lia.
  - apply (proj2 (proj2 editTask_skips_duration_check)
             " Standup "%string "09:00"%string "10:00"%string "high"%string
             None 1%Z 2%Z 3%Z).
    vm_compute. reflexivity.
Defined.

Lemma conflicting_neighbour_Some arr idx cand :
  (∃ p, prev_at arr idx = Some p ∧ clashes cand p = true)
  ∨ (∃ n, arr !! idx = Some n ∧ clashes cand n = true) →
  ∃ other, conflicting_neighbour arr idx cand = Some other
           ∧ (prev_at arr idx = Some other ∨ arr !! idx = Some other)
           ∧ clashes cand other = true
           ∧ ∀ p, prev_at arr idx = Some p → clashes cand p = true → other = p.
Proof.
  unfold conflicting_neighbour.
  intros [(p & Hp & Hc)|(n & Hn & Hc)].
  - rewrite Hp, Hc. exists p. split_and!; auto. congruence.
  - rewrite Hn, Hc.
    destruct (prev_at arr idx) as [p|]; [destruct (clashes cand p) eqn:Hp|].
    + exists p. split_and!; auto. congruence.
    + exists n. split_and!; auto. congruence.
    + exists n. split_and!; auto. congruence.
Qed.

Lemma notify_no_save this msg : Forall (λ e, ¬ is_save e) (notify this msg).
Proof. unfold notify. apply Forall_fmap, Forall_forall. intros o _. simpl. tauto. Qed.

Lemma notify_reaches this msg obs :
  obs ∈ observers this → ObserverUpdate obs msg ∈ notify this msg.
Proof. intros Hobs. unfold notify. apply list_elem_of_fmap. by exists obs. Qed.

(** C5. When the predecessor or the successor at the insertion position
    overlaps the candidate, [addTask] fails with the conflict message that
    quotes the title of that neighbour (the predecessor when both overlap),
    leaves the manager as it was, writes nothing to the store, and updates
    every observer with the message.  After adding Standup [540,600),
    adding [570,630) fails with the message naming Standup, and the
    schedule holds Standup only. *)
Theorem addTask_conflict :
  (∀ this task idx,
     findInsertIndex this (Task.startMinutes task) = Some idx →
     (∃ p, prev_at (tasks this) idx = Some p ∧ clashes task p = true)
     ∨ (∃ n, tasks this !! idx = Some n ∧ clashes task n = true) →
     ∃ o other,
       addTask this task = Some o
       ∧ (prev_at (tasks this) idx = Some other ∨ tasks this !! idx = Some other)
       ∧ clashes task other = true
       ∧ (∀ p, prev_at (tasks this) idx = Some p → clashes task p = true →
               other = p)
       ∧ success (result o) = false
       ∧ message (result o) = addConflictMsg other
       ∧ (∃ rest, message (result o) =
                    "Task conflicts with existing task " +:+ JsString.dquote
                      +:+ Task.title other +:+ JsString.dquote +:+ rest)
       ∧ after o = this
       ∧ Forall (λ e, ¬ is_save e) (effects o)
       ∧ ∀ obs, obs ∈ observers this →
                ObserverUpdate obs (message (result o)) ∈ effects o)
  ∧ (∃ o1 o2,
       addTask Scenario.observed Scenario.standup = Some o1
       ∧ success (result o1) = true
       ∧ addTask (after o1) Scenario.overlap = Some o2
       ∧ success (result o2) = false
       ∧ message (result o2) = addConflictMsg Scenario.standup
       ∧ Task.title Scenario.standup = "Standup"
       ∧ listTasks (after o2) = [Scenario.standup]
       ∧ effects o2 =
           [ObserverUpdate 1 (addConflictMsg Scenario.standup);
            LoggerInfo ("Add conflict: " +:+ addConflictMsg Scenario.standup)]).
Proof.
  split.
  - intros this task idx Hidx Hclash.
    apply conflicting_neighbour_Some in Hclash
      as (other & Hother & Hwhere & Hc & Hfirst).
    rewrite (addTask_eq _ _ _ Hidx), Hother.
    exists (addConflict this other), other. simpl.
    split_and!; try done.
    + by eexists.
    + apply Forall_app. split; [apply notify_no_save|].
      repeat constructor. simpl. tauto.
    + intros obs Hobs. apply elem_of_app. left. by apply notify_reaches.
  - do 2 eexists. split_and!; [vm_compute; reflexivity|done|vm_compute; reflexivity|done..].
Qed.

Lemma addTask_conflict_witness :
  ∃ o other,
    addTask (with_tasks Scenario.observed [Scenario.standup]) Scenario.overlap = Some o
    ∧ (prev_at [Scenario.standup] 1 = Some other ∨ [Scenario.standup] !! 1 = Some other)
    ∧ clashes Scenario.overlap other = true
    ∧ (∀ p, prev_at [Scenario.standup] 1 = Some p →
            clashes Scenario.overlap p = true → other = p)
    ∧ success (result o) = false
    ∧ message (result o) = addConflictMsg other
    ∧ (∃ rest, message (result o) =
                 "Task conflicts with existing task " +:+ JsString.dquote
                   +:+ Task.title other +:+ JsString.dquote +:+ rest)
    ∧ after o = with_tasks Scenario.observed [Scenario.standup]
    ∧ Forall (λ e, ¬ is_save e) (effects o)
    ∧ ∀ obs, obs ∈ [1] → ObserverUpdate obs (message (result o)) ∈ effects o.
Proof.
  apply (proj1 addTask_conflict
           (with_tasks Scenario.observed [Scenario.standup]) Scenario.overlap 1).
  - vm_compute. reflexivity.
  - left. exists Scenario.standup. split; reflexivity.
Defined.

(** C2. When the schedule holds a task with the identifier, [editTask]
    builds a copy that keeps [id], [completed] and [createdAt] and, for
    each field the update set omits, the stored value; it searches the
    insertion position of the copy in the collection without the original
    and checks the two neighbours there.  On a conflict it fails and the
    manager is what it was; otherwise it succeeds and the collection is the
    old one with the original removed and the copy inserted at that
    position, which on a sorted schedule is its sorted position.  The
    original takes no part in the check: on a schedule that satisfies the
    invariant, a copy that stays within the slot of the original is
    accepted and replaces it where it stands.  After adding [540,600) and
    [660,720), moving the first to [600,660) succeeds. *)
Theorem editTask_reinserts :
  (∀ this id updates idx original,
     list_find (λ x, Task.id x = id) (tasks this) = Some (idx, original) →
     let updated := updatedCopy original updates in
     let arr := delete idx (tasks this) in
     (Task.id updated = Task.id original
      ∧ Task.completed updated = Task.completed original
      ∧ Task.createdAt updated = Task.createdAt original)
     ∧ (Task.title updated = default (Task.title original) (u_title updates)
        ∧ Task.startMinutes updated
          = default (Task.startMinutes original) (u_startMinutes updates)
        ∧ Task.endMinutes updated
          = default (Task.endMinutes original) (u_endMinutes updates)
        ∧ Task.priority updated
          = default (Task.priority original) (u_priority updates)
        ∧ Task.description updated
          = match u_description updates with
            | Some d => Some d
            | None => Task.description original
            end)
     ∧ ∃ i o,
         insertIdx_loop arr updated 0 (length arr) = Some i
         ∧ i ≤ length arr
         ∧ (sorted_by_start (tasks this) →
            is_insert_index arr (Task.startMinutes updated) i
            ∧ (conflicting_neighbour arr i updated = None →
               sorted_by_start (tasks (after o))))
         ∧ editTask this id updates = Some o
         ∧ match conflicting_neighbour arr i updated with
           | Some other =>
               success (result o) = false
               ∧ message (result o) = editConflictMsg other
               ∧ other ∈ arr
               ∧ after o = this
               ∧ Forall (λ e, ¬ is_save e) (effects o)
           | None =>
               success (result o) = true
               ∧ tasks (after o) = take i arr ++ updated :: drop i arr
           end)
  ∧ (∀ this id updates idx original,
       schedule_invariant (tasks this) →
       list_find (λ x, Task.id x = id) (tasks this) = Some (idx, original) →
       let updated := updatedCopy original updates in
       (Task.startMinutes original ≤ Task.startMinutes updated)%Z →
       positive_duration updated →
       (Task.endMinutes updated ≤ Task.endMinutes original)%Z →
       ∃ o, editTask this id updates = Some o
            ∧ success (result o) = true
            ∧ tasks (after o) = <[idx := updated]> (tasks this))
  ∧ (∃ o1 o2 o3,
       addTask empty Scenario.standup = Some o1
       ∧ addTask (after o1) Scenario.lunch = Some o2
       ∧ editTask (after o2) "a" (Scenario.move 600 660) = Some o3
       ∧ success (result o3) = true
       ∧ listTasks (after o3) =
           [updatedCopy Scenario.standup (Scenario.move 600 660); Scenario.lunch]).
Proof.
  split.
  - intros this id updates idx original Hfind updated arr.
    split; [done|]. split; [done|].
    destruct (insertIdx_total arr updated) as (i & Hi & Hle).
    pose proof (editTask_eq _ _ updates _ _ _ Hfind Hi) as Hedit.
    fold updated in Hedit. change (JsArray.splice_out idx (tasks this)) with arr in Hedit.
    eexists i, _. split_and!; [done|done| |exact Hedit|].
    + intros Hs. pose proof (sorted_splice_out _ idx Hs) as Hs'.
      pose proof (insertIdx_sorted _ _ _ Hs' Hi) as Hins.
      split; [done|]. intros ->. simpl. by apply sorted_splice_in.
    + destruct (conflicting_neighbour arr i updated) as [other|] eqn:Hc; simpl.
      * split_and!; try done.
        -- unfold conflicting_neighbour in Hc.
           assert (∀ j, arr !! j = Some other → other ∈ arr) as Hin
             by (intros j Hj; by eapply list_elem_of_lookup_2).
           destruct i as [|i']; simpl in Hc;
             repeat match type of Hc with
               | context [arr !! ?j] =>
                   let E := fresh "E" in destruct (arr !! j) eqn:E
               | context [clashes ?a ?b] => destruct (clashes a b)
               end; simplify_eq; eauto.
        -- constructor; [simpl; tauto|apply notify_no_save].
      * done.
  - split.
    + intros this id updates idx original Hinv Hfind updated Hstart Hdur Hend.
      pose proof (list_find_lookup _ _ _ _ Hfind) as (Horig & _ & Hlt).
      destruct (own_slot _ _ _ updated Hinv Horig Hstart Hdur Hend) as [Hins Hfree].
      destruct (insertIdx_total (JsArray.splice_out idx (tasks this)) updated)
        as (i & Hi & _).
      destruct Hinv as (Hs & _ & _).
      pose proof (insertIdx_sorted _ _ _ (sorted_splice_out _ idx Hs) Hi) as Hins'.
      pose proof (is_insert_index_unique _ _ _ _ Hins' Hins) as ->.
      rewrite (editTask_eq _ _ updates _ _ _ Hfind Hi). fold updated.
      rewrite Hfree. eexists. split; [reflexivity|]. split; [done|].
      simpl. by apply splice_in_splice_out.
    + do 3 eexists.
      split_and!; [vm_compute; reflexivity..|done|done].
Qed.

Lemma editTask_reinserts_witness :
  (∃ o, editTask (with_tasks empty [Scenario.standup; Scenario.lunch]) "c"
          (Scenario.only_start 590) = Some o
        ∧ success (result o) = false
        ∧ message (result o) = editConflictMsg Scenario.standup
        ∧ after o = with_tasks empty [Scenario.standup; Scenario.lunch])
  ∧ (∃ o, editTask (with_tasks empty [Scenario.standup; Scenario.lunch]) "a"
            (Scenario.only_start 550) = Some o
          ∧ success (result o) = true
          ∧ tasks (after o) =
              [updatedCopy Scenario.standup (Scenario.only_start 550);
               Scenario.lunch]).
Proof.
  split.
  - destruct (proj1 editTask_reinserts
                (with_tasks empty [Scenario.standup; Scenario.lunch]) "c"%string
                (Scenario.only_start 590) 1 Scenario.lunch eq_refl)
      as (_ & _ & i & o & Hi & _ & _ & Hedit & Hcase).
    injection Hi as <-. exists o. split; [exact Hedit|].
    destruct Hcase as (Hs & Hm & _ & Ha & _). auto.
  - apply (proj1 (proj2 editTask_reinserts)
             (with_tasks empty [Scenario.standup; Scenario.lunch]) "a"%string
             (Scenario.only_start 550) 0 Scenario.standup).
    + split_and!; repeat constructor;
        unfold start_le, ends_before, positive_duration; simpl; lia.
    + reflexivity.
    + simpl. lia.
    + unfold positive_duration. simpl. lia.
    + simpl. lia.
Defined.

Lemma findInsertIndex_lower_bound_witness :
  (∃ i, findInsertIndex (with_tasks empty [Scenario.standup; Scenario.lunch]) 600
          = Some i
        ∧ is_insert_index [Scenario.standup; Scenario.lunch] 600 i
        ∧ ∀ i', i' ≤ 2 →
                (∀ j x, i' ≤ j → [Scenario.standup; Scenario.lunch] !! j = Some x →
                        (600 ≤ Task.startMinutes x)%Z) →
                i ≤ i')
  ∧ (∃ i, insertIdx_loop [Scenario.lunch] Scenario.review 0 1 = Some i
          ∧ findInsertIndex (with_tasks empty [Scenario.lunch]) 650 = Some i
          ∧ is_insert_index [Scenario.lunch] 650 i).
Proof.
  assert (sorted_by_start [Scenario.standup; Scenario.lunch]) as Hs
    by (repeat constructor; unfold start_le; simpl; lia).
  split.
  - exact (proj1 findInsertIndex_lower_bound
             (with_tasks empty [Scenario.standup; Scenario.lunch]) 600%Z Hs).
  - exact (proj2 findInsertIndex_lower_bound
             (with_tasks empty [Scenario.standup; Scenario.lunch]) 0
             Scenario.review Hs).
Defined.

(** C8. [listTasksByPriority(p)] removes the white space around [p]; when
    nothing is left, that is when [p] is empty or blank, it returns the
    empty sequence, whatever the schedule holds; otherwise it returns, in
    schedule order, exactly the tasks whose priority equals the trimmed [p]
    up to case. *)
Theorem listTasksByPriority_spec :
  (∀ this p,
     (∃ l r, p = l +:+ JsString.trim p +:+ r ∧ blank l ∧ blank r
             ∧ ¬ starts_white (JsString.trim p) ∧ ¬ ends_white (JsString.trim p))
     ∧ (blank p → listTasksByPriority this p = [])
     ∧ (¬ blank p →
        listTasksByPriority this p =
          filter (λ x, equal_ignoring_case (Task.priority x) (JsString.trim p))
            (tasks this)))
  ∧ listTasksByPriority (with_tasks empty [Scenario.standup; Scenario.lunch])
      EmptyString = []
  ∧ listTasksByPriority (with_tasks empty [Scenario.standup; Scenario.lunch])
      "  " = []
  ∧ listTasksByPriority (with_tasks empty [Scenario.standup; Scenario.lunch])
      " HIGH " = [Scenario.standup].
Proof.
  split; [|by split_and!].
  intros this p. split; [apply trim_split|].
  unfold listTasksByPriority. split.
  - intros Hb. apply trim_empty in Hb. by rewrite Hb.
  - intros Hb.
    destruct (String.eqb_spec (JsString.toLowerCase (JsString.trim p)) EmptyString)
      as [He|_].
    + apply toLowerCase_empty, trim_empty in He. done.
    + apply list_filter_iff. intros x. apply toLowerCase_eq.
Qed.

Lemma listTasksByPriority_spec_witness :
  listTasksByPriority (with_tasks empty [Scenario.standup; Scenario.lunch]) " medium"
    = [Scenario.lunch]
  ∧ listTasksByPriority (with_tasks empty [Scenario.standup; Scenario.lunch]) " "
    = [].
Proof.
  split.
  - rewrite (proj2 (proj2 (proj1 listTasksByPriority_spec
               (with_tasks empty [Scenario.standup; Scenario.lunch])
               " medium"%string))).
    + vm_compute. reflexivity.
    + simpl. intros [_ [E _]]. vm_compute in E. discriminate E.
  - apply (proj1 (proj2 (proj1 listTasksByPriority_spec
             (with_tasks empty [Scenario.standup; Scenario.lunch]) " "%string))).
    simpl. split; [reflexivity|exact I].
Defined.

Lemma set_completed_idem x :
  Task.set_completed (Task.set_completed x) = Task.set_completed x.
Proof. reflexivity. Qed.

Lemma list_find_set_completed (arr : list Task) id idx found :
  list_find (λ x, Task.id x = id) arr = Some (idx, found) →
  list_find (λ x, Task.id x = id) (<[idx := Task.set_completed found]> arr)
  = Some (idx, Task.set_completed found).
Proof.
  intros Hfind. apply list_find_Some in Hfind as (Hl & Hid & Hfirst).
  apply list_find_Some. split_and!.
  - apply list_lookup_insert_eq. by eapply lookup_lt_Some.
  - done.
  - intros j y Hj Hlt. rewrite list_lookup_insert_ne in Hj by lia.
    by eapply Hfirst.
Qed.

(** C9. When the schedule holds a task with the identifier,
    [markCompleted(id)] succeeds; the task keeps its position and every
    field but [completed], which is true afterwards; no other task changes;
    a second call succeeds too and changes nothing. *)
Theorem markCompleted_idempotent this id idx found :
  list_find (λ x, Task.id x = id) (tasks this) = Some (idx, found) →
  ∃ o1 o2 marked,
    markCompleted this id = Some o1
    ∧ success (result o1) = true
    ∧ tasks (after o1) !! idx = Some marked
    ∧ Task.completed marked = true
    ∧ (Task.id marked = Task.id found
       ∧ Task.title marked = Task.title found
       ∧ Task.description marked = Task.description found
       ∧ Task.startMinutes marked = Task.startMinutes found
       ∧ Task.endMinutes marked = Task.endMinutes found
       ∧ Task.priority marked = Task.priority found
       ∧ Task.createdAt marked = Task.createdAt found)
    ∧ length (tasks (after o1)) = length (tasks this)
    ∧ (∀ j, j ≠ idx → tasks (after o1) !! j = tasks this !! j)
    ∧ markCompleted (after o1) id = Some o2
    ∧ success (result o2) = true
    ∧ tasks (after o2) = tasks (after o1)
    ∧ Task.completed <$> (tasks (after o2) !! idx) = Some true.
Proof.
  intros Hfind.
  pose proof (list_find_set_completed _ _ _ _ Hfind) as Hagain.
  pose proof (list_find_lookup _ _ _ _ Hfind) as (Hl & _ & Hlt).
  unfold markCompleted at 1. rewrite Hfind.
  eexists _, _, (Task.set_completed found). split; [reflexivity|]. simpl.
  assert (<[idx:=Task.set_completed found]> (tasks this) !! idx
          = Some (Task.set_completed found)) as Hat
    by by apply list_lookup_insert_eq.
  split_and!; try done.
  - apply length_insert.
  - intros j Hj. by apply list_lookup_insert_ne.
  - unfold markCompleted. simpl. rewrite Hagain. reflexivity.
  - done.
  - simpl. by rewrite set_completed_idem, list_insert_insert_eq.
  - simpl. rewrite set_completed_idem, list_insert_insert_eq, Hat. done.
Qed.

Lemma markCompleted_idempotent_witness :
  ∃ o1 o2,
    markCompleted (with_tasks empty [Scenario.standup; Scenario.lunch]) "c" = Some o1
    ∧ success (result o1) = true
    ∧ markCompleted (after o1) "c" = Some o2
    ∧ success (result o2) = true
    ∧ tasks (after o2) = tasks (after o1)
    ∧ Task.completed <$> (tasks (after o2) !! 1) = Some true.
Proof.
  destruct (markCompleted_idempotent
              (with_tasks empty [Scenario.standup; Scenario.lunch]) "c"%string
              1 Scenario.lunch eq_refl)
    as (o1 & o2 & marked & H1 & H2 & _ & _ & _ & _ & _ & H3 & H4 & H5 & H6).
  exists o1, o2. auto 10.
Defined.
End Claims.

(** * Further properties of the code *)

(** ** What every call does to the store and to the observers *)

Section Effects.
Import ScheduleManager.

Lemma conflicting_neighbour_elem arr idx cand other :
  conflicting_neighbour arr idx cand = Some other →
  other ∈ arr ∧ clashes cand other = true.
Proof.
  unfold conflicting_neighbour, prev_at. intros Hc.
  assert (∀ j, arr !! j = Some other → other ∈ arr) as Hin
    by (intros j Hj; by eapply list_elem_of_lookup_2).
  destruct idx as [|i];
    repeat match type of Hc with
      | context [arr !! ?j] =>
          let E := fresh "E" in destruct (arr !! j) eqn:E
      | context [clashes ?a ?b] =>
          let E := fresh "E" in destruct (clashes a b) eqn:E
      end; simplify_eq; eauto.
Qed.

(** The collaborator calls of one call of the manager, by outcome. *)
Lemma call_effects this c :
  ∃ o, call this c = Some o
  ∧ observers (after o) = observers this
  ∧ ((success (result o) = true
      ∧ ∃ msg, effects o =
                 SaveTasks (tasks (after o)) :: LoggerInfo msg :: notify this msg)
     ∨ (success (result o) = false
        ∧ after o = this
        ∧ (effects o = notify this (message (result o))
                         ++ [LoggerInfo ("Add conflict: " +:+ message (result o))]
           ∨ effects o = LoggerInfo ("Edit conflict: " +:+ message (result o))
                           :: notify this (message (result o))
           ∨ (effects o = [LoggerInfo (message (result o))]
              ∧ ∃ id, c = RemoveTaskById id)
           ∨ effects o = []))).
Proof.
  destruct c as [task|id updates|id|id]; simpl.
  - destruct (findInsertIndex_total this (Task.startMinutes task)) as (idx & Hidx & _).
    rewrite (addTask_eq _ _ _ Hidx).
    destruct (conflicting_neighbour _ _ _) as [other|]; eexists; split; try done.
    + split; [done|]. right. split_and!; try done. by left.
    + split; [done|]. left. split; [done|]. by eexists.
  - destruct (list_find (λ x, Task.id x = id) (tasks this))
      as [[idx original]|] eqn:Hfind.
    + destruct (insertIdx_total (JsArray.splice_out idx (tasks this))
                  (updatedCopy original updates)) as (i & Hi & _).
      rewrite (editTask_eq _ _ _ _ _ _ Hfind Hi).
      destruct (conflicting_neighbour _ _ _) as [other|]; eexists; split; try done.
      * split; [done|]. right. split_and!; try done. right; by left.
      * split; [done|]. left. split; [done|]. by eexists.
    + unfold editTask. rewrite Hfind. eexists; split; [done|]. split; [done|].
      right. split_and!; try done. by do 3 right.
  - unfold removeTaskById.
    destruct (list_find (λ x, Task.id x = id) (tasks this))
      as [[idx removed]|] eqn:Hfind; eexists; split; try done.
    + split; [done|]. left. split; [done|]. by eexists.
    + split; [done|]. right. split_and!; try done. right; right; left.
      split; [done|]. by exists id.
  - unfold markCompleted.
    destruct (list_find (λ x, Task.id x = id) (tasks this))
      as [[idx found]|] eqn:Hfind; eexists; split; try done.
    + split; [done|]. left. split; [done|]. by eexists.
    + split; [done|]. right. split_and!; try done. by do 3 right.
Qed.
Ltac settle_cases saved :=
  repeat first
    [ progress simpl
    | case_bool_decide
    | match goal with
      | |- context [@lookup _ _ _ _ ?i ?l] => destruct (l !! i)
      | |- context [overlaps ?a ?b ?c ?d] => destruct (overlaps a b c d)
      end ];
  try done; destruct saved; done.

Lemma addTask_settle saved this task :
  FailingStore.addTask saved this task
  = FailingStore.settle saved <$> addTask this task.
Proof.
  unfold FailingStore.addTask, addTask, FailingStore.settle.
  destruct (findInsertIndex this (Task.startMinutes task)) as [idx|]; [|done].
  settle_cases saved.
Qed.

Lemma editTask_settle saved this id updates :
  FailingStore.editTask saved this id updates
  = FailingStore.settle saved <$> editTask this id updates.
Proof.
  unfold FailingStore.editTask, editTask, FailingStore.settle.
  destruct (list_find (λ x, Task.id x = id) (tasks this)) as [[idx original]|];
    [|done].
  destruct (insertIdx_loop _ _ _ _) as [i|]; [|done].
  settle_cases saved.
Qed.

(** With a write that may be rejected, a call does what it does when the
    write is accepted, up to the rejection. *)
Lemma call_settle saved this c :
  FailingStore.call saved this c = FailingStore.settle saved <$> call this c.
Proof.
  destruct c as [task|id updates|id|id]; simpl.
  - apply addTask_settle.
  - apply editTask_settle.
  - unfold FailingStore.removeTaskById, removeTaskById, FailingStore.settle.
    destruct (list_find (λ x, Task.id x = id) (tasks this)) as [[idx removed]|];
      [|done].
    destruct saved; done.
  - unfold FailingStore.markCompleted, markCompleted, FailingStore.settle.
    destruct (list_find (λ x, Task.id x = id) (tasks this)) as [[idx found]|];
      [|done].
    destruct saved; done.
Qed.

Lemma after_settle saved o :
  FailingStore.after (FailingStore.settle saved o) = after o.
Proof. unfold FailingStore.settle. by destruct (_ && _). Qed.

Lemma changed_settle saved o :
  FailingStore.changed (FailingStore.settle saved o) = success (result o).
Proof.
  unfold FailingStore.settle.
  destruct (success (result o)) eqn:Hok, saved; simpl; by rewrite ?Hok.
Qed.

Lemma session_settle cs : ∀ this rs final,
  session this cs.*1 = Some (rs, final) →
  ∃ ss, FailingStore.session this cs = Some (ss, final).
Proof.
  induction cs as [|[c saved] cs IH]; intros this rs final Hrun; simpl in *.
  - simplify_eq. by eexists.
  - destruct (call this c) as [o|] eqn:Ho; simplify_eq/=.
    destruct (session (after o) cs.*1) as [[rs' final']|] eqn:Hs; simplify_eq/=.
    rewrite call_settle, Ho. simpl. rewrite after_settle.
    destruct (IH _ _ _ Hs) as (ss & ->). simpl. by eexists.
Qed.
End Effects.

Section Discipline.
Import ScheduleManager.

Lemma notify_elem this msg x m :
  ObserverUpdate x m ∈ notify this msg ↔ x ∈ observers this ∧ m = msg.
Proof.
  unfold notify. rewrite list_elem_of_fmap. split.
  - intros (y & Heq & Hy). injection Heq as ? ?. by subst.
  - intros [Hx Hm]. subst. by exists x.
Qed.

(** X1. No mutation reads outside the collection, whatever it holds.  A
    call rejects only when the store rejects its write; the collection in
    memory is then already the one the call leaves when the write is
    accepted, the rejected write is the only call it made to a collaborator
    (no log line, no update of an observer).  A call that resolves with
    success true wrote the new collection to the store exactly once, before
    it logged and before it updated any observer; a call that resolves with
    success false left the manager as it was and attempted no write. *)
Theorem call_saves_iff_success saved this c :
  ∃ s, FailingStore.call saved this c = Some s
  ∧ match s with
    | FailingStore.Resolves o =>
        (success (result o) = true →
         saved = true
         ∧ ∃ msg, effects o =
                    SaveTasks (tasks (after o)) :: LoggerInfo msg
                      :: notify (after o) msg)
        ∧ (success (result o) = false →
           after o = this ∧ Forall (λ e, ¬ is_save e) (effects o))
    | FailingStore.Rejects this' effs =>
        saved = false
        ∧ effs = [SaveTasks (tasks this')]
        ∧ ∃ o, FailingStore.call true this c = Some (FailingStore.Resolves o)
               ∧ success (result o) = true
               ∧ this' = after o
    end.
Proof.
  destruct (call_effects this c) as (o & Ho & Hobs & Hcases).
  rewrite !call_settle, Ho. simpl.
  exists (FailingStore.settle saved o). split; [done|].
  unfold FailingStore.settle.
  destruct Hcases as [(Hok & msg & Heff)|(Hko & Hsame & Heff)].
  - rewrite Hok. destruct saved; simpl.
    + split; [|congruence]. intros _. split; [done|]. exists msg.
      rewrite Heff. unfold notify. by rewrite Hobs.
    + split_and!; [done..|]. exists o. by rewrite Hok.
  - rewrite Hko. simpl. split; [congruence|]. intros _. split; [done|].
    destruct Heff as [-> | [-> | [[-> _] | ->]]].
    + apply Forall_app. split; [apply notify_no_save|].
      repeat constructor. simpl. tauto.
    + constructor; [simpl; tauto|apply notify_no_save].
    + repeat constructor. simpl. tauto.
    + constructor.
Qed.

Lemma call_saves_iff_success_witness :
  ∃ this',
    FailingStore.call false Scenario.observed (AddTask Scenario.standup)
    = Some (FailingStore.Rejects this' [SaveTasks (tasks this')])
    ∧ ∃ o, FailingStore.call true Scenario.observed (AddTask Scenario.standup)
           = Some (FailingStore.Resolves o)
           ∧ success (result o) = true
           ∧ this' = after o.
Proof.
  assert (∃ this' effs,
            FailingStore.call false Scenario.observed (AddTask Scenario.standup)
            = Some (FailingStore.Rejects this' effs)) as (this0 & effs0 & Hrun)
    by (do 2 eexists; vm_compute; reflexivity).
  destruct (call_saves_iff_success false Scenario.observed
              (AddTask Scenario.standup)) as (s & Hs & Hcase).
  rewrite Hrun in Hs. injection Hs as <-.
  destruct Hcase as (_ & -> & Hsame).
  exists this0. split; [exact Hrun|exact Hsame].
Defined.

(** X2. With an identifier no stored task has, [findTaskById] finds
    nothing and the three calls that take an identifier fail and leave the
    manager as it was: [removeTaskById] with one log line, [editTask] and
    [markCompleted] without any call to a collaborator. *)
Theorem unknown_id_changes_nothing this id :
  (∀ x, x ∈ tasks this → Task.id x ≠ id) →
  findTaskById this id = None
  ∧ removeTaskById this id
    = Some {| result := {| success := false; message := "Error: Task not found." |};
              after := this;
              effects := [LoggerInfo "Error: Task not found."] |}
  ∧ (∀ updates,
       editTask this id updates
       = Some {| result := {| success := false; message := "Task not found." |};
                 after := this; effects := [] |})
  ∧ markCompleted this id
    = Some {| result := {| success := false; message := "Task not found." |};
              after := this; effects := [] |}.
Proof.
  intros Hfresh.
  assert (list_find (λ x, Task.id x = id) (tasks this) = None) as Hnone.
  { apply list_find_None, Forall_forall. exact Hfresh. }
  unfold findTaskById, removeTaskById, editTask, markCompleted.
  rewrite Hnone. done.
Qed.

Lemma unknown_id_changes_nothing_witness :
  findTaskById (with_tasks empty [Scenario.standup]) "zz" = None
  ∧ removeTaskById (with_tasks empty [Scenario.standup]) "zz"
    = Some {| result := {| success := false; message := "Error: Task not found." |};
              after := with_tasks empty [Scenario.standup];
              effects := [LoggerInfo "Error: Task not found."] |}.
Proof.
  destruct (unknown_id_changes_nothing (with_tasks empty [Scenario.standup])
              "zz"%string) as (Hfind & Hremove & _).
  - intros x Hx. apply list_elem_of_singleton in Hx as ->. discriminate.
  - exact (conj Hfind Hremove).
Defined.

(** X3. An [addTask] that made its change, whether it resolved with
    success or rejected at its write, leaves the collection exactly one task
    longer, and a [removeTaskById] that made its change exactly one task
    shorter; [editTask], [markCompleted] and every call that resolves with
    success false keep its length. *)
Theorem call_length saved this c :
  ∃ s, FailingStore.call saved this c = Some s
  ∧ length (tasks (FailingStore.after s)) =
      (if FailingStore.changed s
       then match c with
            | AddTask _ => S (length (tasks this))
            | RemoveTaskById _ => length (tasks this) - 1
            | _ => length (tasks this)
            end
       else length (tasks this))
  ∧ (∀ id, c = RemoveTaskById id → FailingStore.changed s = true →
           length (tasks this) = S (length (tasks (FailingStore.after s)))).
Proof.
  destruct (call_cases this c) as (o & Ho & _ & Hcases).
  rewrite call_settle, Ho. simpl.
  exists (FailingStore.settle saved o). split; [done|].
  rewrite after_settle, changed_settle.
  destruct Hcases as [[Hko ->]|[Hok Hcases]].
  { rewrite Hko. split; [done|congruence]. }
  rewrite Hok.
  destruct Hcases as [(task & idx & -> & _ & _ & ->)
    |[(id & updates & idx & original & i & -> & Hfind & _ & _ & ->)
    |[(id & idx & removed & -> & Hfind & ->)
    |(id & idx & found & -> & Hfind & ->)]]].
  - split; [apply length_splice_in|done].
  - apply list_find_lookup in Hfind as (Hl & _ & Hlt).
    split; [|done].
    rewrite length_splice_in. unfold JsArray.splice_out.
    rewrite length_delete by by eexists. lia.
  - apply list_find_lookup in Hfind as (Hl & _ & Hlt).
    unfold JsArray.splice_out. rewrite length_delete by by eexists.
    split; [done|]. intros; lia.
  - apply list_find_lookup in Hfind as (Hl & _ & Hlt).
    split; [|done]. apply length_insert.
Qed.

Lemma call_length_witness :
  ∃ s, FailingStore.call false (with_tasks empty [Scenario.standup; Scenario.lunch])
         (RemoveTaskById "a") = Some s
       ∧ 2 = S (length (tasks (FailingStore.after s))).
Proof.
  assert (∃ this' effs,
            FailingStore.call false
              (with_tasks empty [Scenario.standup; Scenario.lunch])
              (RemoveTaskById "a")
            = Some (FailingStore.Rejects this' effs)) as (this0 & effs0 & Hrun)
    by (do 2 eexists; vm_compute; reflexivity).
  destruct (call_length false (with_tasks empty [Scenario.standup; Scenario.lunch])
              (RemoveTaskById "a")) as (s & Hs & _ & Hremove).
  exists s. split; [exact Hs|].
  apply (Hremove "a"%string eq_refl).
  rewrite Hrun in Hs. injection Hs as <-. reflexivity.
Defined.
End Discipline.

(** ** Observers *)

Section Observers.
Import ScheduleManager.

Lemma update_only_to_observers this c o x m :
  call this c = Some o → ObserverUpdate x m ∈ effects o → x ∈ observers this.
Proof.
  intros Ho Hin. destruct (call_effects this c) as (o' & Ho' & _ & Hcases).
  rewrite Ho in Ho'. injection Ho' as <-.
  destruct Hcases as [(_ & msg & Heff)|(_ & _ & Heff)].
  - rewrite Heff in Hin. do 2 (apply elem_of_cons in Hin as [?|Hin]; [done|]).
    by apply notify_elem in Hin as [? _].
  - destruct Heff as [Heff | [Heff | [[Heff _] | Heff]]]; rewrite Heff in Hin.
    + apply elem_of_app in Hin as [Hin|Hin].
      * by apply notify_elem in Hin as [? _].
      * by apply list_elem_of_singleton in Hin.
    + apply elem_of_cons in Hin as [?|Hin]; [done|].
      by apply notify_elem in Hin as [? _].
    + by apply list_elem_of_singleton in Hin.
    + by apply elem_of_nil in Hin.
Qed.

Lemma filter_absent (obs : Observer) (l : list Observer) :
  obs ∉ l → filter (λ x, x ≠ obs) l = l.
Proof.
  induction l as [|x l IH]; [done|].
  intros [Hne Hnot]%not_elem_of_cons.
  rewrite filter_cons_True by congruence. f_equal. by apply IH.
Qed.

(** X4. After [unsubscribe(obs)] no call updates [obs] any more, and [obs]
    stays unsubscribed; the other observers stay subscribed, in their
    order; unsubscribing an observer that is not subscribed changes
    nothing. *)
Theorem unsubscribe_silences this obs :
  (∀ c, ∃ o, call (unsubscribe this obs) c = Some o
             ∧ (∀ msg, ObserverUpdate obs msg ∉ effects o)
             ∧ obs ∉ observers (after o))
  ∧ observers (unsubscribe this obs) = filter (λ x, x ≠ obs) (observers this)
  ∧ (obs ∉ observers this → unsubscribe this obs = this).
Proof.
  assert (obs ∉ observers (unsubscribe this obs)) as Hgone.
  { simpl. rewrite list_elem_of_filter. tauto. }
  split_and!.
  - intros c. destruct (call_cases (unsubscribe this obs) c) as (o & Ho & Hobs & _).
    exists o. split; [done|]. split.
    + intros msg Hin. apply Hgone. by eapply update_only_to_observers.
    + by rewrite Hobs.
  - done.
  - intros Hnot. destruct this as [ts obss]. unfold unsubscribe.
    cbn [tasks observers] in *. f_equal. by apply filter_absent.
Qed.

Lemma unsubscribe_silences_witness :
  unsubscribe Scenario.observed 2 = Scenario.observed.
Proof.
  apply (proj2 (proj2 (unsubscribe_silences Scenario.observed 2))).
  intros Hin. apply list_elem_of_singleton in Hin. discriminate.
Defined.


(** X5. Observers are updated only while subscribed; all updates of one
    call carry the same message; a call that succeeds updates every
    subscribed observer. *)
Theorem updates_reach_subscribers this c :
  ∃ o, call this c = Some o
  ∧ (∀ x m, ObserverUpdate x m ∈ effects o → x ∈ observers this)
  ∧ (∀ x y m m', ObserverUpdate x m ∈ effects o →
                 ObserverUpdate y m' ∈ effects o → m = m')
  ∧ (success (result o) = true →
     ∃ msg, ∀ x, x ∈ observers this → ObserverUpdate x msg ∈ effects o).
Proof.
  destruct (call_effects this c) as (o & Ho & _ & Hcases).
  exists o. split; [done|]. split; [intros x m; by apply (update_only_to_observers this c o)|].
  assert (∀ msg x m, ObserverUpdate x m ∈ effects o →
            (∀ y m', ObserverUpdate y m' ∈ effects o → m' = msg) → m = msg)
    as Hsame by (intros msg x m Hin Hall; by eapply Hall).
  destruct Hcases as [(Hok & msg & Heff)|(Hko & _ & Heff)].
  - assert (∀ y m', ObserverUpdate y m' ∈ effects o → m' = msg) as Hall.
    { intros y m' Hin. rewrite Heff in Hin.
      do 2 (apply elem_of_cons in Hin as [?|Hin]; [done|]).
      by apply notify_elem in Hin as [_ ?]. }
    split.
    + intros x y m m' Hx Hy. by rewrite (Hall x m Hx), (Hall y m' Hy).
    + intros _. exists msg. intros x Hx. rewrite Heff.
      do 2 (apply elem_of_cons; right). by apply notify_elem.
  - split; [|congruence].
    assert (∀ y m', ObserverUpdate y m' ∈ effects o → m' = message (result o))
      as Hall.
    { intros y m' Hin.
      destruct Heff as [Heff | [Heff | [[Heff _] | Heff]]]; rewrite Heff in Hin.
      - apply elem_of_app in Hin as [Hin|Hin].
        + by apply notify_elem in Hin as [_ ?].
        + by apply list_elem_of_singleton in Hin.
      - apply elem_of_cons in Hin as [?|Hin]; [done|].
        by apply notify_elem in Hin as [_ ?].
      - by apply list_elem_of_singleton in Hin.
      - by apply elem_of_nil in Hin. }
    intros x y m m' Hx Hy. by rewrite (Hall x m Hx), (Hall y m' Hy).
Qed.

Lemma updates_reach_subscribers_witness :
  ∃ o msg, call Scenario.observed (AddTask Scenario.standup) = Some o
           ∧ ∀ x, x ∈ observers Scenario.observed →
                  ObserverUpdate x msg ∈ effects o.
Proof.
  assert (call Scenario.observed (AddTask Scenario.standup)
          = Some (added Scenario.observed 0 Scenario.standup)) as Hrun
    by (vm_compute; reflexivity).
  destruct (updates_reach_subscribers Scenario.observed (AddTask Scenario.standup))
    as (o & Ho & _ & _ & Hok).
  assert (success (result o) = true) as Hsuccess.
  { rewrite Hrun in Ho. injection Ho as <-. reflexivity. }
  destruct (Hok Hsuccess) as (msg & Hmsg).
  exists o, msg. split; [exact Ho|exact Hmsg].
Defined.

End Observers.

(** ** The neighbour check against a scan of the whole collection *)

Section Scan.
Import ScheduleManager.

Lemma clashes_false_before cand x :
  (Task.endMinutes x ≤ Task.startMinutes cand)%Z → clashes cand x = false.
Proof. unfold clashes, overlaps. lia. Qed.

Lemma clashes_false_after cand x :
  (Task.endMinutes cand ≤ Task.startMinutes x)%Z → clashes cand x = false.
Proof. unfold clashes, overlaps. lia. Qed.

(** On a schedule that satisfies the invariant, the two neighbours at the
    insertion position are free exactly when the whole collection is. *)
Lemma neighbour_free_iff arr idx cand :
  schedule_invariant arr → positive_duration cand →
  is_insert_index arr (Task.startMinutes cand) idx →
  conflicting_neighbour arr idx cand = None
  ↔ ∀ x, x ∈ arr → clashes cand x = false.
Proof.
  intros (Hs & Hno & Hpos) Hcand (Hidx & Hlt & Hge). split.
  - intros Hfree. apply conflicting_neighbour_None in Hfree as [Hprev Hnext].
    assert (∀ j x, arr !! j = Some x → positive_duration x) as Hdur
      by (by apply Forall_lookup).
    intros x [j Hx]%list_elem_of_lookup_1.
    pose proof (lookup_lt_Some _ _ _ Hx) as Hj.
    destruct (decide (j < idx)) as [Hlow|Hhigh].
    + destruct idx as [|i]; [lia|].
      destruct (lookup_lt_is_Some_2 arr i) as [p Hp]; [lia|].
      pose proof (Hprev p Hp) as Hfreep. pose proof (Hlt i p ltac:(lia) Hp) as Hsp.
      pose proof (Hdur i p Hp) as Hdp.
      apply clashes_false_before.
      assert (Task.endMinutes p ≤ Task.startMinutes cand)%Z as Hpe.
      { unfold clashes, overlaps, positive_duration in *. lia. }
      destruct (decide (j = i)) as [->|Hne]; [by simplify_eq|].
      pose proof (no_overlap_lookup_lt arr j i x p Hno Hpos ltac:(lia) Hx Hp).
      unfold positive_duration in *. lia.
    + destruct (lookup_lt_is_Some_2 arr idx) as [n Hn]; [lia|].
      pose proof (Hnext n Hn) as Hfreen. pose proof (Hge idx n ltac:(lia) Hn) as Hsn.
      pose proof (Hdur idx n Hn) as Hdn.
      apply clashes_false_after.
      assert (Task.endMinutes cand ≤ Task.startMinutes n)%Z as Hne.
      { unfold clashes, overlaps, positive_duration in *. lia. }
      destruct (decide (j = idx)) as [->|Hneq]; [by simplify_eq|].
      pose proof (no_overlap_lookup_lt arr idx j n x Hno Hpos ltac:(lia) Hn Hx).
      unfold positive_duration in *. lia.
  - intros Hall.
    destruct (conflicting_neighbour arr idx cand) as [other|] eqn:Hc; [|done].
    apply conflicting_neighbour_elem in Hc as [Hin Hclash].
    rewrite (Hall other Hin) in Hclash. done.
Qed.

(** X6. On a schedule that satisfies the invariant, [addTask] accepts a
    task that lasts for a positive time exactly when no stored task
    overlaps it: the check of the two neighbours decides what a scan of the
    whole collection would. *)
Theorem addTask_accepts_iff_free this task :
  schedule_invariant (tasks this) → positive_duration task →
  ∃ o, addTask this task = Some o
       ∧ (success (result o) = true
          ↔ ∀ x, x ∈ tasks this →
                 overlaps (Task.startMinutes x) (Task.endMinutes x)
                   (Task.startMinutes task) (Task.endMinutes task) = false).
Proof.
  intros Hinv Htask.
  destruct (findInsertIndex_total this (Task.startMinutes task)) as (idx & Hidx & _).
  pose proof (findInsertIndex_sorted _ _ _ (proj1 Hinv) Hidx) as Hins.
  rewrite (addTask_eq _ _ _ Hidx).
  pose proof (neighbour_free_iff _ _ _ Hinv Htask Hins) as Hiff.
  unfold clashes in Hiff.
  destruct (conflicting_neighbour _ _ _) eqn:Hc;
    eexists; (split; [done|]); simpl; rewrite <- Hiff; done.
Qed.

Lemma addTask_accepts_iff_free_witness :
  ∃ o, addTask (with_tasks empty [Scenario.standup; Scenario.lunch]) Scenario.review
       = Some o
       ∧ (success (result o) = true
          ↔ ∀ x, x ∈ [Scenario.standup; Scenario.lunch] →
                 overlaps (Task.startMinutes x) (Task.endMinutes x) 650 750 = false).
Proof.
  apply (addTask_accepts_iff_free
           (with_tasks empty [Scenario.standup; Scenario.lunch]) Scenario.review).
  - split_and!; repeat constructor;
      unfold start_le, ends_before, positive_duration; simpl; lia.
  - unfold positive_duration. simpl. lia.
Defined.

(** X7. On a schedule that satisfies the invariant, [editTask] accepts a
    copy that lasts for a positive time exactly when no stored task other
    than the original overlaps it. *)
Theorem editTask_accepts_iff_free this id updates idx original :
  schedule_invariant (tasks this) →
  list_find (λ x, Task.id x = id) (tasks this) = Some (idx, original) →
  positive_duration (updatedCopy original updates) →
  ∃ o, editTask this id updates = Some o
       ∧ (success (result o) = true
          ↔ ∀ j x, j ≠ idx → tasks this !! j = Some x →
                   overlaps (Task.startMinutes x) (Task.endMinutes x)
                     (Task.startMinutes (updatedCopy original updates))
                     (Task.endMinutes (updatedCopy original updates)) = false).
Proof.
  intros (Hs & Hno & Hpos) Hfind Hcopy.
  set (arr := JsArray.splice_out idx (tasks this)).
  assert (schedule_invariant arr) as Hinv'.
  { split_and!; [by apply sorted_splice_out|by apply no_overlap_splice_out
                 |by apply positive_splice_out]. }
  destruct (insertIdx_total arr (updatedCopy original updates)) as (i & Hi & _).
  pose proof (insertIdx_sorted _ _ _ (proj1 Hinv') Hi) as Hins.
  rewrite (editTask_eq _ _ _ _ _ _ Hfind Hi). fold arr.
  assert ((∀ x, x ∈ arr → clashes (updatedCopy original updates) x = false)
          ↔ ∀ j x, j ≠ idx → tasks this !! j = Some x →
                   clashes (updatedCopy original updates) x = false) as Hscan.
  { split.
    - intros Hall j x Hj Hx. apply Hall. apply list_elem_of_lookup.
      destruct (decide (j < idx)).
      + exists j. unfold arr. by rewrite lookup_splice_out, decide_True.
      + exists (j - 1). unfold arr. rewrite lookup_splice_out, decide_False by lia.
        by replace (S (j - 1)) with j by lia.
    - intros Hall x [k Hk]%list_elem_of_lookup_1.
      unfold arr in Hk. rewrite lookup_splice_out in Hk.
      case_decide; [apply (Hall k)|apply (Hall (S k))]; done || lia. }
  pose proof (neighbour_free_iff _ _ _ Hinv' Hcopy Hins) as Hiff.
  rewrite Hscan in Hiff. unfold clashes in Hiff.
  destruct (conflicting_neighbour _ _ _) eqn:Hc;
    eexists; (split; [done|]); simpl; rewrite <- Hiff; done.
Qed.

Lemma editTask_accepts_iff_free_witness :
  ∃ o, editTask (with_tasks empty [Scenario.standup; Scenario.lunch]) "a"
         (Scenario.move 610 670) = Some o
       ∧ (success (result o) = true
          ↔ ∀ j x, j ≠ 0 → [Scenario.standup; Scenario.lunch] !! j = Some x →
                   overlaps (Task.startMinutes x) (Task.endMinutes x) 610 670
                   = false).
Proof.
  apply (editTask_accepts_iff_free
           (with_tasks empty [Scenario.standup; Scenario.lunch]) "a"%string
           (Scenario.move 610 670) 0 Scenario.standup).
  - split_and!; repeat constructor;
      unfold start_le, ends_before, positive_duration; simpl; lia.
  - reflexivity.
  - unfold positive_duration. simpl. lia.
Defined.

(** X8. Along a session from the empty schedule in which every task handed
    to [addTask] and every copy built by [editTask] lasts for a positive
    time, and whichever of its writes the store rejects, any two tasks the
    manager holds, adjacent or not, are disjoint: the earlier one ends
    before the later one starts, so starts increase strictly and [overlaps]
    is false of the pair. *)
Theorem session_tasks_disjoint (cs : list (Call * bool)) :
  well_formed_session empty cs.*1 →
  ∃ ss final,
    FailingStore.session empty cs = Some (ss, final)
    ∧ ∀ j k a b, j < k →
        tasks final !! j = Some a → tasks final !! k = Some b →
        (Task.endMinutes a ≤ Task.startMinutes b)%Z
        ∧ (Task.startMinutes a < Task.startMinutes b)%Z
        ∧ overlaps (Task.startMinutes a) (Task.endMinutes a)
            (Task.startMinutes b) (Task.endMinutes b) = false.
Proof.
  intros Hwf.
  destruct (session_invariant cs.*1 empty) as (rs & final & Hrun & _ & Hno & Hpos);
    [by split_and!; constructor|done|].
  destruct (session_settle cs empty rs final Hrun) as (ss & Hss).
  exists ss, final. split; [done|].
  intros j k a b Hjk Ha Hb.
  pose proof (no_overlap_lookup_lt _ j k a b Hno Hpos Hjk Ha Hb) as Hab.
  rewrite Forall_lookup in Hpos. pose proof (Hpos j a Ha) as Hda.
  unfold positive_duration, overlaps in *. lia.
Qed.

Lemma session_tasks_disjoint_witness :
  ∃ ss final,
    FailingStore.session empty
      [(AddTask Scenario.lunch, false); (AddTask Scenario.standup, true)]
      = Some (ss, final)
    ∧ ∀ j k a b, j < k →
        tasks final !! j = Some a → tasks final !! k = Some b →
        (Task.endMinutes a ≤ Task.startMinutes b)%Z
        ∧ (Task.startMinutes a < Task.startMinutes b)%Z
        ∧ overlaps (Task.startMinutes a) (Task.endMinutes a)
            (Task.startMinutes b) (Task.endMinutes b) = false.
Proof.
  apply (session_tasks_disjoint
           [(AddTask Scenario.lunch, false); (AddTask Scenario.standup, true)]).
  simpl. split; [unfold positive_duration; simpl; lia|].
  intros o _. split; [unfold positive_duration; simpl; lia|done].
Defined.
End Scan.

(** ** Adding, finding and removing by identifier *)

Section RoundTrips.
Import ScheduleManager.

Lemma splice_out_splice_in {A} (l : list A) idx x :
  idx ≤ length l → JsArray.splice_out idx (JsArray.splice_in idx x l) = l.
Proof.
  intros Hidx. apply list_eq. intros j.
  rewrite lookup_splice_out, !lookup_splice_in by done.
  repeat case_decide; try lia; try done.
  f_equal. lia.
Qed.

Lemma findTaskById_splice_out (l : list Task) idx removed id :
  l !! idx = Some removed → Task.id removed ≠ id →
  snd <$> list_find (λ x, Task.id x = id) (JsArray.splice_out idx l)
  = snd <$> list_find (λ x, Task.id x = id) l.
Proof.
  unfold JsArray.splice_out. revert idx.
  induction l as [|y l IH]; intros [|i] Hl Hne; simplify_eq/=.
  - rewrite decide_False by done. by destruct (list_find _ l) as [[? ?]|].
  - case_decide; [done|].
    specialize (IH i Hl Hne).
    destruct (list_find _ (delete i l)) as [[? ?]|],
      (list_find _ l) as [[? ?]|]; simplify_eq/=; done.
Qed.

(** X9. When no stored task has the identifier of the task, a successful
    [addTask] makes [findTaskById] return that task, and a [removeTaskById]
    with its identifier then succeeds and gives back the collection as it
    was before the task was added. *)
Theorem add_find_remove this task :
  (∀ x, x ∈ tasks this → Task.id x ≠ Task.id task) →
  ∃ o, addTask this task = Some o
       ∧ (success (result o) = true →
          findTaskById (after o) (Task.id task) = Some task
          ∧ ∃ o', removeTaskById (after o) (Task.id task) = Some o'
                  ∧ success (result o') = true
                  ∧ tasks (after o') = tasks this).
Proof.
  intros Hfresh.
  destruct (findInsertIndex_total this (Task.startMinutes task)) as (idx & Hidx & Hle).
  rewrite (addTask_eq _ _ _ Hidx).
  destruct (conflicting_neighbour _ _ _); eexists; (split; [done|]); [done|].
  intros _. simpl.
  assert (list_find (λ x, Task.id x = Task.id task)
            (JsArray.splice_in idx task (tasks this)) = Some (idx, task)) as Hfind.
  { apply list_find_Some. split_and!.
    - rewrite lookup_splice_in by done.
      rewrite decide_False by lia. by rewrite decide_True.
    - done.
    - intros j y Hy Hj. rewrite lookup_splice_in, decide_True in Hy by done.
      apply Hfresh. by eapply list_elem_of_lookup_2. }
  split.
  - unfold findTaskById. simpl. by rewrite Hfind.
  - unfold removeTaskById. simpl. rewrite Hfind.
    eexists. split; [done|]. split; [done|]. simpl.
    by apply splice_out_splice_in.
Qed.

Lemma add_find_remove_witness :
  ∃ o, addTask (with_tasks empty [Scenario.standup]) Scenario.lunch = Some o
       ∧ (success (result o) = true →
          findTaskById (after o) "c" = Some Scenario.lunch
          ∧ ∃ o', removeTaskById (after o) "c" = Some o'
                  ∧ success (result o') = true
                  ∧ tasks (after o') = [Scenario.standup]).
Proof.
  apply (add_find_remove (with_tasks empty [Scenario.standup]) Scenario.lunch).
  intros x Hx. apply list_elem_of_singleton in Hx as ->. discriminate.
Defined.

(** X10. When the stored identifiers are pairwise distinct,
    [removeTaskById(id)] leaves a collection in which [findTaskById(id)]
    finds nothing, whether it removed a task or not; what [findTaskById]
    returns for any other identifier is what it returned before. *)
Theorem remove_then_find this id :
  NoDup (Task.id <$> tasks this) →
  ∃ o, removeTaskById this id = Some o
       ∧ findTaskById (after o) id = None
       ∧ ∀ id', id' ≠ id → findTaskById (after o) id' = findTaskById this id'.
Proof.
  intros Hnodup. unfold removeTaskById, findTaskById.
  destruct (list_find (λ x, Task.id x = id) (tasks this))
    as [[idx removed]|] eqn:Hfind.
  - eexists. split; [done|]. simpl.
    apply list_find_lookup in Hfind as (Hl & Hid & Hlt).
    split.
    + assert (list_find (λ x, Task.id x = id) (JsArray.splice_out idx (tasks this))
              = None) as ->; [|done].
      apply list_find_None, Forall_lookup. intros k x Hk Hx.
      rewrite lookup_splice_out in Hk.
      assert (∀ j, j ≠ idx → tasks this !! j = Some x → False) as Hno.
      { intros j Hj Hjx.
        apply Hj. eapply (NoDup_lookup _ j idx id Hnodup).
        - by rewrite list_lookup_fmap, Hjx; simpl; rewrite Hx.
        - by rewrite list_lookup_fmap, Hl; simpl; rewrite Hid. }
      case_decide; [apply (Hno k)|apply (Hno (S k))]; done || lia.
    + intros id' Hne. apply (findTaskById_splice_out _ _ removed); [done|congruence].
  - eexists. split; [done|]. simpl. by rewrite Hfind.
Qed.

Lemma remove_then_find_witness :
  ∃ o, removeTaskById (with_tasks empty [Scenario.standup; Scenario.lunch]) "a"
       = Some o
       ∧ findTaskById (after o) "a" = None
       ∧ ∀ id', id' ≠ "a"%string →
                findTaskById (after o) id'
                = findTaskById (with_tasks empty [Scenario.standup; Scenario.lunch]) id'.
Proof.
  apply (remove_then_find (with_tasks empty [Scenario.standup; Scenario.lunch])
           "a"%string).
  simpl. repeat constructor.
  - intros Hin. apply list_elem_of_singleton in Hin. discriminate.
  - intros Hin. by apply elem_of_nil in Hin.
Defined.

(** X12. [editTask] never adds, drops or renames a task, and never changes
    a completion flag or a creation stamp: up to order, the identifiers with
    their flags and stamps are the same after the call as before. *)
Theorem editTask_keeps_identities this id updates :
  ∃ o, editTask this id updates = Some o
       ∧ ((λ x, (Task.id x, Task.completed x, Task.createdAt x))
            <$> tasks (after o))
         ≡ₚ ((λ x, (Task.id x, Task.completed x, Task.createdAt x))
               <$> tasks this).
Proof.
  destruct (call_cases this (EditTask id updates)) as (o & Ho & _ & Hcases).
  exists o. split; [done|].
  destruct Hcases as [[_ ->]|[_ Hcases]]; [done|].
  destruct Hcases as [(task & idx & ? & _)
    |[(id' & updates' & idx & original & i & Heq & Hfind & _ & _ & ->)
    |[(id' & idx & removed & ? & _)
    |(id' & idx & found & ? & _)]]]; try done.
  injection Heq as <- <-.
  apply list_find_lookup in Hfind as (Hl & _ & _).
  rewrite splice_in_Permutation.
  rewrite (delete_Permutation (tasks this) idx original Hl) at 2.
  rewrite !fmap_cons. done.
Qed.
End RoundTrips.

(** ** The initial load *)

Section Load.
Import ScheduleManager.

(** X11. The initial load neither loses nor duplicates a stored task; it
    keeps the stored order among tasks that start at the same minute; a
    store that is already sorted by start is taken as it is; a missing or
    corrupt store gives the empty schedule. *)
Theorem load_sorts_stably (arr : list Task) :
  tasks (getInstance (Some arr)) ≡ₚ arr
  ∧ (∀ s, filter (λ x, Task.startMinutes x = s) (tasks (getInstance (Some arr)))
          = filter (λ x, Task.startMinutes x = s) arr)
  ∧ (sorted_by_start arr → tasks (getInstance (Some arr)) = arr)
  ∧ tasks (getInstance None) = [].
Proof.
  simpl. split_and!; [| |apply sort_sorted_id|done].
  - induction arr as [|x arr IH]; simpl; [done|].
    by rewrite insert_Permutation, IH.
  - intros s. induction arr as [|x arr IH]; simpl; [done|].
    by rewrite insert_filter_start, !(filter_cons _ x), IH.
Qed.

Lemma load_sorts_stably_witness :
  tasks (getInstance (Some [Scenario.standup; Scenario.lunch]))
  = [Scenario.standup; Scenario.lunch].
Proof.
  apply (proj1 (proj2 (proj2 (load_sorts_stably [Scenario.standup; Scenario.lunch])))).
  repeat constructor. unfold start_le. simpl. lia.
Defined.
End Load.

(** ** Times as text *)

Section Times.
Import TimeUtils.

Lemma checkRange_Returns h m r :
  checkRange h m = Returns r →
  (0 ≤ h ≤ 23 ∧ 0 ≤ m ≤ 59 ∧ r = h * 60 + m)%Z.
Proof.
  unfold checkRange.
  destruct ((h <? 0)%Z || (23 <? h)%Z || (m <? 0)%Z || (59 <? m)%Z) eqn:E;
    [done|].
  intros [= <-]. lia.
Qed.

Lemma parseTimeToMinutes_range s r :
  parseTimeToMinutes s = Returns r → (0 ≤ r < 1440)%Z.
Proof.
  unfold parseTimeToMinutes, invalidFormat. intros Hs.
  repeat case_match; simplify_eq;
    match goal with
    | H : checkRange _ _ = Returns _ |- _ => apply checkRange_Returns in H; lia
    end.
Qed.

Lemma minutesToHHMM_parses m :
  (0 ≤ m < 1440)%Z →
  parseTimeToMinutes (minutesToHHMM m) = Returns m
  ∧ String.length (minutesToHHMM m) = 5.
Proof.
  intros Hm.
  assert (forallb
            (λ n, match parseTimeToMinutes (minutesToHHMM (Z.of_nat n)) with
                  | Returns r =>
                      (r =? Z.of_nat n)%Z
                      && (String.length (minutesToHHMM (Z.of_nat n)) =? 5)
                  | Throws _ => false
                  end) (seq 0 1440) = true) as Hall
    by (vm_compute; reflexivity).
  rewrite forallb_forall in Hall.
  assert (In (Z.to_nat m) (seq 0 1440)) as Hin by (apply in_seq; lia).
  specialize (Hall (Z.to_nat m) Hin). rewrite Z2Nat.id in Hall by lia.
  destruct (parseTimeToMinutes (minutesToHHMM m)) as [r|]; [|done].
  apply andb_true_iff in Hall as [Hr Hlen].
  apply Z.eqb_eq in Hr as ->. by apply Nat.eqb_eq in Hlen.
Qed.

(** X13. [parseTimeToMinutes] returns only minutes of the day, 0 to 1439;
    [minutesToHHMM] writes each of them as five characters that
    [parseTimeToMinutes] reads back as the same minute, so a text that
    parses and its normal form [HH:mm] parse alike; the two getters of a
    task format with the same function. *)
Theorem parseTimeToMinutes_round_trip :
  (∀ s r, parseTimeToMinutes s = Returns r →
          (0 ≤ r < 1440)%Z
          ∧ parseTimeToMinutes (minutesToHHMM r) = Returns r)
  ∧ (∀ m, (0 ≤ m < 1440)%Z →
          parseTimeToMinutes (minutesToHHMM m) = Returns m
          ∧ String.length (minutesToHHMM m) = 5)
  ∧ (∀ x, Task.getStartHHMM x = minutesToHHMM (Task.startMinutes x)
          ∧ Task.getEndHHMM x = minutesToHHMM (Task.endMinutes x)).
Proof.
  split_and!.
  - intros s r Hs. pose proof (parseTimeToMinutes_range s r Hs) as Hr.
    split; [done|]. by apply minutesToHHMM_parses.
  - apply minutesToHHMM_parses.
  - done.
Qed.

Lemma parseTimeToMinutes_round_trip_witness :
  ((0 ≤ 545 < 1440)%Z ∧ parseTimeToMinutes (minutesToHHMM 545) = Returns 545%Z)
  ∧ (parseTimeToMinutes (minutesToHHMM 1439) = Returns 1439%Z
     ∧ String.length (minutesToHHMM 1439) = 5).
Proof.
  split.
  - apply (proj1 parseTimeToMinutes_round_trip "9:05"%string 545%Z).
    vm_compute. reflexivity.
  - apply (proj1 (proj2 parseTimeToMinutes_round_trip) 1439%Z). lia.
Defined.
End Times.

(** ** The factory and the queries *)

Section Factory.
Import ScheduleManager JsString.

Lemma trimStart_id s : ¬ starts_white s → trimStart s = s.
Proof.
  destruct s as [|c s]; simpl; [done|].
  intros Hc. destruct (isWhiteSpace c); [by destruct Hc|done].
Qed.

Lemma trimEnd_id s : ¬ ends_white s → trimEnd s = s.
Proof.
  induction s as [|c s IH]; [done|].
  destruct s as [|d s].
  - simpl. intros Hc. destruct (isWhiteSpace c); [by destruct Hc|done].
  - intros Hs. change (¬ ends_white (String d s)) in Hs.
    change (trimEnd (String c (String d s)))
      with (match trimEnd (String d s) with
            | EmptyString =>
                if isWhiteSpace c then EmptyString else String c EmptyString
            | r => String c r
            end).
    by rewrite (IH Hs).
Qed.

Lemma trim_idempotent s : trim (trim s) = trim s.
Proof.
  destruct (trim_split s) as (_ & _ & _ & _ & _ & Hstart & Hend).
  unfold trim at 1. rewrite (trimStart_id _ Hstart). by apply trimEnd_id.
Qed.

Lemma parsePriority_Returns s p :
  TaskFactory.parsePriority s = Returns p →
  (p = "High" ∨ p = "Medium" ∨ p = "Low")%string
  ∧ toLowerCase p = toLowerCase (trim s).
Proof.
  unfold TaskFactory.parsePriority.
  repeat match goal with
    | |- context [String.eqb ?a ?b] => destruct (String.eqb_spec a b) as [-> | ]
    end; intros [= <-]; auto.
Qed.

Lemma create_Returns title startHHMM endHHMM priority description now rnd created task :
  TaskFactory.create title startHHMM endHHMM priority description now rnd created
    = Returns task →
  ∃ start end_ p,
    TimeUtils.parseTimeToMinutes startHHMM = Returns start
    ∧ TimeUtils.parseTimeToMinutes endHHMM = Returns end_
    ∧ (start < end_)%Z
    ∧ TaskFactory.parsePriority priority = Returns p
    ∧ task = Task.new (toString now +:+ "-" +:+ toString rnd) (trim title)
               start end_ p (trim <$> description) false created.
Proof.
  unfold TaskFactory.create.
  destruct (TimeUtils.parseTimeToMinutes startHHMM) as [start|]; [|done].
  destruct (TimeUtils.parseTimeToMinutes endHHMM) as [end_|]; [|done].
  destruct (Z.leb_spec end_ start); [done|].
  destruct (TaskFactory.parsePriority priority) as [p|]; [|done].
  intros [= <-]. by exists start, end_, p.
Qed.

(** X14. Every task [TaskFactory.create] returns starts and ends within
    the day with 0 <= start < end <= 1439, has one of the three priorities
    Low, Medium, High, is not completed, and has a title and a description
    without white space at either end; and when both times parse but the
    end is not after the start, [create] throws. *)
Theorem create_well_formed :
  (∀ title startHHMM endHHMM priority description now rnd created task,
     TaskFactory.create title startHHMM endHHMM priority description
       now rnd created = Returns task →
     (0 ≤ Task.startMinutes task < Task.endMinutes task)%Z
     ∧ (Task.endMinutes task ≤ 1439)%Z
     ∧ Task.priority task ∈ ["Low"; "Medium"; "High"]%string
     ∧ Task.completed task = false
     ∧ Task.createdAt task = created
     ∧ Task.title task = trim title
     ∧ ¬ starts_white (Task.title task) ∧ ¬ ends_white (Task.title task)
     ∧ ∀ d, Task.description task = Some d → ¬ starts_white d ∧ ¬ ends_white d)
  ∧ (∀ title startHHMM endHHMM priority description now rnd created start end_,
       TimeUtils.parseTimeToMinutes startHHMM = Returns start →
       TimeUtils.parseTimeToMinutes endHHMM = Returns end_ →
       (end_ ≤ start)%Z →
       TaskFactory.create title startHHMM endHHMM priority description
         now rnd created = Throws "End time must be after start time.").
Proof.
  split.
  - intros title startHHMM endHHMM priority description now rnd created task Hc.
    apply create_Returns in Hc as (start & end_ & p & Hs & He & Hlt & Hp & ->).
    apply parseTimeToMinutes_range in Hs, He.
    apply parsePriority_Returns in Hp as [Hp _]. simpl.
    destruct (trim_split title) as (_ & _ & _ & _ & _ & Hstart & Hend).
    split_and!; try done; try lia.
    + destruct Hp as [-> | [-> | ->]]; rewrite !elem_of_cons; auto.
    + intros d Hd. destruct description as [d0|]; simplify_eq/=.
      destruct (trim_split d0) as (_ & _ & _ & _ & _ & ? & ?). done.
  - intros title startHHMM endHHMM priority description now rnd created start end_
      Hs He Hle.
    unfold TaskFactory.create. rewrite Hs, He.
    by destruct (Z.leb_spec end_ start); [|lia].
Qed.

Lemma create_well_formed_witness :
  ((0 ≤ 540 < 600)%Z ∧ (600 ≤ 1439)%Z)
  ∧ TaskFactory.create "x" "10:00" "09:59" "low" None 1 2 3
    = Throws "End time must be after start time.".
Proof.
  split.
  - destruct (proj1 create_well_formed
                " Standup "%string "09:00"%string "10:00"%string "high"%string
                None 1%Z 2%Z 3%Z
                (Task.new "1-2" "Standup" 540 600 "High" None false 3) eq_refl)
      as (H1 & H2 & _).
    exact (conj H1 H2).
  - apply (proj2 create_well_formed "x"%string "10:00"%string "09:59"%string
             "low"%string None 1%Z 2%Z 3%Z 600%Z 599%Z);
      [reflexivity|reflexivity|lia].
Defined.

(** X15. [findTasksByTitle(q)] removes the white space around [q] and
    returns, in schedule order, exactly the tasks whose title equals the
    rest up to case; unlike [listTasksByPriority], on an empty or blank [q]
    it returns the tasks whose title is empty. *)
Theorem findTasksByTitle_spec this q :
  findTasksByTitle this q
  = filter (λ x, equal_ignoring_case (Task.title x) (trim q)) (tasks this)
  ∧ (blank q →
     findTasksByTitle this q
     = filter (λ x, Task.title x = EmptyString) (tasks this)).
Proof.
  unfold findTasksByTitle. split.
  - apply list_filter_iff. intros x. apply toLowerCase_eq.
  - intros Hb. apply trim_empty in Hb. rewrite Hb.
    apply list_filter_iff. intros x. apply toLowerCase_empty.
Qed.

Lemma findTasksByTitle_spec_witness :
  findTasksByTitle (with_tasks empty [Scenario.standup]) "  "
  = filter (λ x, Task.title x = EmptyString) [Scenario.standup].
Proof.
  apply (proj2 (findTasksByTitle_spec (with_tasks empty [Scenario.standup])
                  "  "%string)).
  simpl. split_and!; reflexivity || exact I.
Defined.

(** X16. A task that [TaskFactory.create] returned and the schedule holds
    is listed by [listTasksByPriority] under the priority text it was
    created with and under its stored priority, and is found by
    [findTasksByTitle] under the title text it was created with and under
    its stored title. *)
Theorem created_task_is_found
    this title startHHMM endHHMM priority description now rnd created task :
  TaskFactory.create title startHHMM endHHMM priority description now rnd created
    = Returns task →
  task ∈ tasks this →
  task ∈ listTasksByPriority this priority
  ∧ task ∈ listTasksByPriority this (Task.priority task)
  ∧ task ∈ findTasksByTitle this title
  ∧ task ∈ findTasksByTitle this (Task.title task).
Proof.
  intros Hc Hin.
  apply create_Returns in Hc as (start & end_ & p & _ & _ & _ & Hp & ->).
  apply parsePriority_Returns in Hp as [Hp Hlow]. simpl.
  assert (∀ text, toLowerCase p = toLowerCase (trim text) →
            Task.new (toString now +:+ "-" +:+ toString rnd) (trim title) start
              end_ p (trim <$> description) false created
            ∈ listTasksByPriority this text) as Hlisted.
  { intros text Htext. unfold listTasksByPriority. rewrite <- Htext.
    destruct (String.eqb_spec (toLowerCase p) EmptyString) as [He|_].
    - destruct Hp as [-> | [-> | ->]]; discriminate He.
    - apply list_elem_of_filter. done. }
  split_and!.
  - by apply Hlisted.
  - apply Hlisted. destruct Hp as [-> | [-> | ->]]; reflexivity.
  - unfold findTasksByTitle. apply list_elem_of_filter. done.
  - unfold findTasksByTitle. apply list_elem_of_filter. simpl.
    by rewrite trim_idempotent.
Qed.

Lemma created_task_is_found_witness :
  Task.new "1-2" "Standup" 540 600 "High" None false 3
  ∈ listTasksByPriority
      (with_tasks empty [Task.new "1-2" "Standup" 540 600 "High" None false 3])
      " hIgH ".
Proof.
  apply (created_task_is_found
           (with_tasks empty [Task.new "1-2" "Standup" 540 600 "High" None false 3])
           " Standup "%string "09:00"%string "10:00"%string " hIgH "%string
           None 1%Z 2%Z 3%Z).
  - vm_compute. reflexivity.
  - apply list_elem_of_singleton. reflexivity.
Defined.
End Factory.

(** ** The commands of the command line *)

Section Commands.
Import ScheduleManager.

Lemma removeTaskById_member this m :
  NoDup (Task.id <$> tasks this) → m ∈ tasks this →
  ∃ idx, tasks this !! idx = Some m
         ∧ removeTaskById this (Task.id m)
           = Some {| result := {| success := true;
                                  message := "Task removed successfully." |};
                     after := with_tasks this (JsArray.splice_out idx (tasks this));
                     effects :=
                       [SaveTasks (JsArray.splice_out idx (tasks this));
                        LoggerInfo ("Task removed: " +:+ Task.title m)]
                         ++ notify
                              (with_tasks this (JsArray.splice_out idx (tasks this)))
                              ("Task removed: " +:+ Task.title m) |}.
Proof.
  intros Hnodup [idx Hm]%list_elem_of_lookup_1. exists idx. split; [done|].
  assert (list_find (λ x, Task.id x = Task.id m) (tasks this) = Some (idx, m))
    as Hfind.
  { apply list_find_Some. split_and!; [done..|].
    intros j y Hy Hj Hid.
    assert (j = idx); [|lia].
    eapply (NoDup_lookup _ j idx (Task.id m) Hnodup).
    - by rewrite list_lookup_fmap, Hy; simpl; rewrite Hid.
    - by rewrite list_lookup_fmap, Hm. }
  unfold removeTaskById. by rewrite Hfind.
Qed.

(** X17. With stored identifiers pairwise distinct, the [remove] command
    never throws and removes at most one task.  When it calls the manager
    the call succeeds, and the task it removes is the one whose identifier
    is the answer or, when no task has that identifier, one whose title
    equals the answer up to case and surrounding white space.  When some
    task has the answer as its identifier, the command does remove it. *)
Theorem remove_command_removes_a_match manager q sel :
  NoDup (Task.id <$> tasks manager) →
  ∃ r, Cli.remove manager q sel = Some r
       ∧ match r with
         | Cli.NoCall _ => ∀ y, y ∈ tasks manager → Task.id y ≠ q
         | Cli.Called o =>
             success (result o) = true
             ∧ ∃ idx x,
                 tasks manager !! idx = Some x
                 ∧ tasks (after o) = delete idx (tasks manager)
                 ∧ (Task.id x = q
                    ∨ ((∀ y, y ∈ tasks manager → Task.id y ≠ q)
                       ∧ equal_ignoring_case (Task.title x) (JsString.trim q)))
         end.
Proof.
  intros Hnodup. unfold Cli.remove, findTaskById.
  destruct (list_find (λ x, Task.id x = q) (tasks manager))
    as [[i byId]|] eqn:Hfind; simpl.
  - apply list_find_lookup in Hfind as (Hl & Hid & _).
    destruct (removeTaskById_member manager byId Hnodup) as (idx & Hx & ->);
      [by eapply list_elem_of_lookup_2|].
    eexists. split; [done|]. simpl. split; [done|]. exists idx, byId. auto.
  - apply list_find_None in Hfind. rewrite Forall_forall in Hfind.
    assert (∀ m, m ∈ findTasksByTitle manager q →
              ∃ o, removeTaskById manager (Task.id m) = Some o
                   ∧ success (result o) = true
                   ∧ ∃ idx x,
                       tasks manager !! idx = Some x
                       ∧ tasks (after o) = delete idx (tasks manager)
                       ∧ (Task.id x = q
                          ∨ ((∀ y, y ∈ tasks manager → Task.id y ≠ q)
                             ∧ equal_ignoring_case (Task.title x)
                                 (JsString.trim q)))) as Hmatch.
    { intros m [Htitle Hin]%list_elem_of_filter.
      destruct (removeTaskById_member manager m Hnodup Hin) as (idx & Hx & ->).
      eexists. split; [done|]. split; [done|]. exists idx, m.
      split_and!; [done..|]. right. split; [done|]. by apply toLowerCase_eq. }
    destruct (findTasksByTitle manager q) as [|m1 [|m2 rest]] eqn:Hms.
    + by eexists.
    + destruct (Hmatch m1) as (o & -> & Ho); [by apply list_elem_of_singleton|].
      by eexists.
    + destruct (Cli.parseInt sel) as [n|]; [|by eexists].
      destruct ((n - 1 <? 0)%Z || (Z.of_nat (length (m1 :: m2 :: rest)) <=? n - 1)%Z)
        eqn:Hsel; [by eexists|].
      destruct (lookup_lt_is_Some_2 (m1 :: m2 :: rest) (Z.to_nat (n - 1)))
        as [m Hm]; [lia|].
      rewrite Hm. simpl.
      destruct (Hmatch m) as (o & -> & Ho); [by eapply list_elem_of_lookup_2|].
      by eexists.
Qed.

Lemma remove_command_removes_a_match_witness :
  ∃ r, Cli.remove (with_tasks empty [Scenario.standup; Scenario.lunch])
         " lunch" EmptyString = Some r
       ∧ match r with
         | Cli.NoCall _ =>
             ∀ y, y ∈ [Scenario.standup; Scenario.lunch] →
                  Task.id y ≠ " lunch"%string
         | Cli.Called o =>
             success (result o) = true
             ∧ ∃ idx x,
                 [Scenario.standup; Scenario.lunch] !! idx = Some x
                 ∧ tasks (after o) = delete idx [Scenario.standup; Scenario.lunch]
                 ∧ (Task.id x = " lunch"%string
                    ∨ ((∀ y, y ∈ [Scenario.standup; Scenario.lunch] →
                             Task.id y ≠ " lunch"%string)
                       ∧ equal_ignoring_case (Task.title x)
                           (JsString.trim " lunch")))
         end.
Proof.
  apply (remove_command_removes_a_match
           (with_tasks empty [Scenario.standup; Scenario.lunch])
           " lunch"%string EmptyString).
  simpl. repeat constructor.
  - intros Hin. apply list_elem_of_singleton in Hin. discriminate.
  - intros Hin. by apply elem_of_nil in Hin.
Defined.

Lemma editTask_in_slot this id updates idx original :
  schedule_invariant (tasks this) →
  list_find (λ x, Task.id x = id) (tasks this) = Some (idx, original) →
  (Task.startMinutes original ≤ Task.startMinutes (updatedCopy original updates))%Z →
  positive_duration (updatedCopy original updates) →
  (Task.endMinutes (updatedCopy original updates) ≤ Task.endMinutes original)%Z →
  ∃ o, editTask this id updates = Some o
       ∧ success (result o) = true
       ∧ tasks (after o) = <[idx := updatedCopy original updates]> (tasks this).
Proof.
  intros Hinv Hfind Hstart Hdur Hend.
  pose proof (list_find_lookup _ _ _ _ Hfind) as (Horig & _ & Hlt).
  destruct (own_slot _ _ _ _ Hinv Horig Hstart Hdur Hend) as [Hins Hfree].
  destruct (insertIdx_total (JsArray.splice_out idx (tasks this))
              (updatedCopy original updates)) as (i & Hi & _).
  destruct Hinv as (Hs & _ & _).
  pose proof (insertIdx_sorted _ _ _ (sorted_splice_out _ idx Hs) Hi) as Hins'.
  pose proof (is_insert_index_unique _ _ _ _ Hins' Hins) as ->.
  rewrite (editTask_eq _ _ updates _ _ _ Hfind Hi), Hfree.
  eexists. split; [reflexivity|]. split; [done|].
  simpl. by apply splice_in_splice_out.
Qed.

(** X18. On a schedule that satisfies the invariant, the [edit] command
    with both time prompts left empty always succeeds and changes the task
    where it stands: the title, the description and the priority become
    the answers that are not empty, as typed (the priority is not brought
    to Low, Medium or High and not checked), and nothing else changes; with
    every prompt left empty the collection is what it was. *)
Theorem edit_command_texts manager id idx original title description priority :
  schedule_invariant (tasks manager) →
  list_find (λ x, Task.id x = id) (tasks manager) = Some (idx, original) →
  ∃ o edited,
    Cli.edit manager id title description EmptyString EmptyString priority
      = Some (Cli.Called o)
    ∧ success (result o) = true
    ∧ tasks (after o) = <[idx := edited]> (tasks manager)
    ∧ Task.title edited
      = (if Cli.answered title then title else Task.title original)
    ∧ Task.description edited
      = (if Cli.answered description then Some description
         else Task.description original)
    ∧ Task.priority edited
      = (if Cli.answered priority then priority else Task.priority original)
    ∧ (Task.id edited = Task.id original
       ∧ Task.startMinutes edited = Task.startMinutes original
       ∧ Task.endMinutes edited = Task.endMinutes original
       ∧ Task.completed edited = Task.completed original
       ∧ Task.createdAt edited = Task.createdAt original)
    ∧ (title = EmptyString → description = EmptyString → priority = EmptyString →
       tasks (after o) = tasks manager).
Proof.
  intros Hinv Hfind.
  pose proof (list_find_lookup _ _ _ _ Hfind) as (Horig & _ & _).
  assert (positive_duration original) as Hdur.
  { destruct Hinv as (_ & _ & Hpos). rewrite Forall_lookup in Hpos. by eapply Hpos. }
  set (updates :=
         {| u_title := if Cli.answered title then Some title else None;
            u_startMinutes := None;
            u_endMinutes := None;
            u_priority := if Cli.answered priority then Some priority else None;
            u_description :=
              if Cli.answered description then Some description else None |}).
  destruct (editTask_in_slot manager id updates idx original Hinv Hfind)
    as (o & Ho & Hok & Htasks); [simpl; lia|exact Hdur|simpl; lia|].
  exists o, (updatedCopy original updates).
  split_and!; try done.
  - unfold Cli.edit, findTaskById. rewrite Hfind. simpl.
    change (Cli.editUpdates title description EmptyString EmptyString priority)
      with (Returns updates).
    cbv beta iota. fold updates. by rewrite Ho.
  - simpl. by destruct (Cli.answered title).
  - simpl. by destruct (Cli.answered description).
  - simpl. by destruct (Cli.answered priority).
  - intros -> -> ->. rewrite Htasks.
    replace (updatedCopy original updates) with original by by destruct original.
    by apply list_insert_id.
Qed.

Lemma edit_command_texts_witness :
  ∃ o edited,
    Cli.edit (with_tasks empty [Scenario.standup; Scenario.lunch]) "c"
      EmptyString EmptyString EmptyString EmptyString "urgent" = Some (Cli.Called o)
    ∧ success (result o) = true
    ∧ tasks (after o) = [Scenario.standup; edited]
    ∧ Task.priority edited = "urgent"%string.
Proof.
  destruct (edit_command_texts
              (with_tasks empty [Scenario.standup; Scenario.lunch]) "c"%string
              1 Scenario.lunch EmptyString EmptyString "urgent"%string)
    as (o & edited & Hrun & Hok & Htasks & _ & _ & Hprio & _).
  - split_and!; repeat constructor;
      unfold start_le, ends_before, positive_duration; simpl; lia.
  - reflexivity.
  - exists o, edited. split_and!; [exact Hrun|exact Hok|exact Htasks|exact Hprio].
Defined.
End Commands.
